(** * Run.py: a directory-tree replicator

    The script walks [SOURCE_DIR] once per copy index, mirrors every
    directory under [TARGET_DIR] and copies every file under a name that
    embeds the copy index.  This development embeds the script over a
    model of the file system and of the three library calls it relies
    on ([os.makedirs], [os.walk], [shutil.copy]) and proves the
    properties stated about it.

    Scope of the file-system model: nodes are regular files and
    directories (no symbolic links, no special files); a path is the list
    of its components; names are compared exactly. *)

From Stdlib Require Import Ascii.
From Stdlib.Strings Require Import Byte.
From stdpp Require Import gmap strings list fin_maps pretty.

(** ** Strings: [os.path.splitext] and the f-string *)

Definition chars (s : string) : list ascii := String.list_ascii_of_string s.
Definition str (l : list ascii) : string := String.string_of_list_ascii l.

Definition is_extsep (c : ascii) : bool := bool_decide (c = "."%char).
Definition is_sep (c : ascii) : bool :=
  bool_decide (c = "\"%char) || bool_decide (c = "/"%char).

(** [rsplit P l] cuts [l] at the last character satisfying [P], the way
    [p.rfind] locates it: [Some (l[:k], l[k+1:])], or [None] for -1. *)
Fixpoint rsplit (P : ascii → bool) (l : list ascii)
  : option (list ascii * list ascii) :=
  match l with
  | [] => None
  | c :: l' =>
      match rsplit P l' with
      | Some (b, a) => Some (c :: b, a)
      | None => if P c then Some ([], l') else None
      end
  end.

(** [genericpath._splitext]: the extension starts at the last dot,
    provided that dot comes after the last separator and that a
    character other than a dot stands between the two. *)
Definition splitext_chars (p : list ascii) : list ascii * list ascii :=
  match rsplit is_extsep p with
  | None => (p, [])
  | Some (b, e) =>
      if existsb is_sep e then (p, [])
      else
        let filename := match rsplit is_sep b with
                        | Some (_, f) => f
                        | None => b
                        end in
        if existsb (λ c, negb (is_extsep c)) filename
        then (b, "."%char :: e)
        else (p, [])
  end.

Definition splitext (file : string) : string * string :=
  let '(name, ext) := splitext_chars (chars file) in (str name, str ext).

(** [f"{name}_copy{i}{ext}"] *)
Definition new_filename (file : string) (i : nat) : string :=
  let '(name, ext) := splitext file in
  name +:+ "_copy" +:+ pretty i +:+ ext.

(** ** Paths *)

Abbreviation path := (list string).

Definition curdir : string := ".".
Definition pardir : string := "..".

(** Length of the longest common prefix, the loop over [zip] in [relpath]. *)
Fixpoint common_len (l1 l2 : path) : nat :=
  match l1, l2 with
  | c1 :: l1', c2 :: l2' =>
      if decide (c1 = c2) then S (common_len l1' l2') else 0
  | _, _ => 0
  end.

(** [os.path.relpath(p, start)] on component lists. *)
Definition relpath (p start : path) : path :=
  let i := common_len start p in
  let rel_list := replicate (length start - i) pardir ++ drop i p in
  match rel_list with
  | [] => [curdir]
  | _ => rel_list
  end.

(** [os.path.join] of two component lists, the second one relative. *)
Definition join (a b : path) : path := a ++ b.

(** The operating system resolves "." and ".." lexically. *)
Definition norm_step (acc : path) (c : string) : path :=
  if decide (c = curdir) then acc
  else if decide (c = pardir) then removelast acc
  else acc ++ [c].

Definition normpath (p : path) : path := foldl norm_step [] p.

Definition basename (p : path) : string := List.last p "".

(** A name that the operating system does not resolve away. *)
Definition proper_name (c : string) : Prop := c ≠ curdir ∧ c ≠ pardir.

(** ** File system *)

Inductive node :=
  | File (readable : bool) (data : list byte)
  | Dir.

Global Instance byte_eq_dec : EqDecision byte := Byte.byte_eq_dec.

Global Instance node_eq_dec : EqDecision node.
Proof. solve_decision. Defined.

Abbreviation filesys := (gmap (list string) node).

Definition is_file (n : node) : bool :=
  match n with File _ _ => true | Dir => false end.

Definition is_dir (n : node) : bool :=
  match n with Dir => true | File _ _ => false end.

(** [os.path.isdir]; the root of the name space is a directory. *)
Definition isdir (fs : filesys) (p : path) : bool :=
  match normpath p with
  | [] => true
  | q => bool_decide (fs !! q = Some Dir)
  end.

(** Every entry sits in a directory and has a proper name. *)
Definition wf (fs : filesys) : Prop :=
  ∀ p c, is_Some (fs !! (p ++ [c])) →
    (p = [] ∨ fs !! p = Some Dir) ∧ proper_name c.

(** *** [os.makedirs(name, exist_ok=True)] *)

Fixpoint makedirs_from (pre rest : path) (fs : filesys) : option filesys :=
  match rest with
  | [] => Some fs
  | c :: rest' =>
      let p := pre ++ [c] in
      match fs !! p with
      | Some Dir => makedirs_from p rest' fs
      | Some (File _ _) => None
      | None => makedirs_from p rest' (<[p := Dir]> fs)
      end
  end.

(** Creates the leaf and all missing intermediate directories; an
    existing directory is accepted, a regular file in the way raises
    ([None]). *)
Definition makedirs (name : path) (fs : filesys) : option filesys :=
  makedirs_from [] (normpath name) fs.

(** *** [shutil.copy(src, dst)] *)

Definition parent (p : path) : path := removelast p.

(** If [dst] is a directory the file is copied into it under the base
    name of [src].  The source must be a readable regular file, the
    final destination must not be a directory nor the source itself,
    and must sit in an existing directory. *)
Definition copy (src dst : path) (fs : filesys) : option filesys :=
  let dst := if isdir fs dst then join dst [basename src] else dst in
  let s := normpath src in
  let d := normpath dst in
  match fs !! s with
  | Some (File true data) =>
      if decide (s = d) then None
      else if isdir fs d then None
      else if isdir fs (parent d) then Some (<[d := File true data]> fs)
      else None
  | _ => None
  end.

(** *** Directory listings *)

(** The order in which a directory is listed is not specified; a listing
    order turns the set of entry names into the list [os.scandir]
    returns. *)
Record listing_order := ListingOrder {
  list_dir :> gset string → list string;
  list_dir_perm : ∀ X, list_dir X ≡ₚ elements X
}.

Definition sorted_order : listing_order :=
  ListingOrder elements (λ X, reflexivity (elements X)).

Definition reverse_order : listing_order :=
  ListingOrder (λ X, reverse (elements X)) (λ X, reverse_Permutation (elements X)).

Definition child_name (top k : path) : option string :=
  match k with
  | [] => None
  | _ => if decide (removelast k = top) then Some (List.last k "") else None
  end.

Definition entries (fs : filesys) (top : path) : gset string :=
  set_omap (child_name top) (dom fs).

Definition entry_is_dir (fs : filesys) (top : path) (n : string) : bool :=
  bool_decide (fs !! (top ++ [n]) = Some Dir).

(** [os.scandir(top)] split into [dirs] and [nondirs] as [os.walk] does;
    [None] when [top] is not a directory ([OSError]). *)
Definition scandir (o : listing_order) (fs : filesys) (top : path)
  : option (list string * list string) :=
  if isdir fs top then
    let names := o (entries fs (normpath top)) in
    Some (filter (λ n, entry_is_dir fs (normpath top) n) names,
          filter (λ n, ¬ entry_is_dir fs (normpath top) n) names)
  else None.

(** ** Control: exceptions ending the run *)

(** [Done fs]: the statement completed; [Raised fs]: an exception
    propagates, [fs] being the file system it leaves behind. *)
Inductive outcome :=
  | Done (fs : filesys)
  | Raised (fs : filesys).

Definition final_fs (r : outcome) : filesys :=
  match r with Done fs | Raised fs => fs end.

Definition succeeded (r : outcome) : bool :=
  match r with Done _ => true | Raised _ => false end.

Definition and_then (r : outcome) (k : filesys → outcome) : outcome :=
  match r with
  | Done fs => k fs
  | Raised fs => Raised fs
  end.

Notation "r >>> k" := (and_then r k) (at level 61, left associativity).

(** A library call either updates the file system or raises. *)
Definition call (op : filesys → option filesys) (fs : filesys) : outcome :=
  match op fs with
  | Some fs' => Done fs'
  | None => Raised fs
  end.

(** [for x in l: body x] *)
Definition for_each {A} (l : list A) (body : A → filesys → outcome) (fs : filesys)
  : outcome :=
  foldl (λ r x, r >>> body x) (Done fs) l.

(** *** [for root, dirs, files in os.walk(top): body]

    [os.walk] is a generator: each directory is listed when the loop
    asks for it, after the body has run for the directories before it.
    A directory that cannot be listed yields nothing. *)
Fixpoint walk_loop (o : listing_order) (fuel : nat)
    (body : path → list string → list string → filesys → outcome)
    (top : path) (fs : filesys) : outcome :=
  match fuel with
  | 0 => Done fs
  | S fuel' =>
      match scandir o fs top with
      | None => Done fs
      | Some (dirs, files) =>
          body top dirs files fs >>>
          for_each dirs (λ d, walk_loop o fuel' body (join top [d]))
      end
  end.

(** The walk cannot go deeper than the longest path of the file system. *)
Definition depth (fs : filesys) : nat :=
  max_list (length <$> elements (dom fs)).

Definition for_os_walk (o : listing_order)
    (body : path → list string → list string → filesys → outcome)
    (top : path) (fs : filesys) : outcome :=
  walk_loop o (S (depth fs)) body top fs.

(** ** The script *)

Definition SOURCE_DIR : path :=
  ["C:"; "Users"; "PZWind-AkashM"; "Desktop"; "BigData"; "DATA"].
Definition TARGET_DIR : path :=
  ["C:"; "Users"; "PZWind-AkashM"; "Desktop"; "BigData"; "DATA_100GB"].
Definition COPIES : nat := 20.

(** Body of the loop over [os.walk(SOURCE_DIR)] for copy index [i]. *)
Definition walk_body (i : nat) (root : path) (dirs files : list string)
    (fs : filesys) : outcome :=
  let rel_path := relpath root SOURCE_DIR in
  let dest_path := join TARGET_DIR rel_path in
  call (makedirs dest_path) fs >>>
  for_each files (λ file,
    let new_filename := new_filename file i in
    let src_file := join root [file] in
    let dst_file := join dest_path [new_filename] in
    call (copy src_file dst_file)).

(** The script with the number of copies as a parameter. *)
Definition run (o : listing_order) (copies : nat) (fs : filesys) : outcome :=
  call (makedirs TARGET_DIR) fs >>>
  for_each (seq 0 copies) (λ i, for_os_walk o (walk_body i) SOURCE_DIR).

Definition main (o : listing_order) : filesys → outcome := run o COPIES.

(** ** Observations on a file system *)

(** Path of [k] relative to [root], when [k] lies under [root]. *)
Fixpoint relative_to (root k : path) : option path :=
  match root, k with
  | [], _ => Some k
  | r :: root', c :: k' => if decide (r = c) then relative_to root' k' else None
  | _ :: _, [] => None
  end.

(** Relative paths of the regular files under [root]. *)
Definition files_under (fs : filesys) (root : path) : gset path :=
  set_omap (relative_to root) (dom (filter (λ kv, is_file kv.2) fs)) ∖ {[ [] ]}.

(** Relative paths of the directories strictly under [root]. *)
Definition dirs_under (fs : filesys) (root : path) : gset path :=
  set_omap (relative_to root) (dom (filter (λ kv, is_dir kv.2) fs)) ∖ {[ [] ]}.

Definition count_files (fs : filesys) (root : path) : nat := size (files_under fs root).

(** Content of the regular file at [p]. *)
Definition content (fs : filesys) (p : path) : option (list byte) :=
  match fs !! p with
  | Some (File _ data) => Some data
  | _ => None
  end.

(** *** Building example file systems *)

Definition add_dir (p : path) (fs : filesys) : filesys :=
  default fs (makedirs p fs).

Definition add_file (p : path) (readable : bool) (data : list byte) (fs : filesys) : filesys :=
  <[p := File readable data]> (add_dir (parent p) fs).

(** ** The run as a sequence of library calls *)

(** The calls the script makes: [MkTarget] is the initial
    [os.makedirs(TARGET_DIR)], [Mkdir root] the [os.makedirs] of the
    loop body for the directory [root] of the walk, [Copy root file i]
    the [shutil.copy] for one of its files. *)
Inductive op :=
  | MkTarget
  | Mkdir (root : path)
  | Copy (root : path) (file : string) (i : nat).

Definition exec (a : op) : filesys → option filesys :=
  match a with
  | MkTarget => makedirs TARGET_DIR
  | Mkdir root => makedirs (join TARGET_DIR (relpath root SOURCE_DIR))
  | Copy root file i =>
      copy (join root [file])
           (join (join TARGET_DIR (relpath root SOURCE_DIR)) [new_filename file i])
  end.

Definition run_ops (ops : list op) : filesys → outcome :=
  for_each ops (λ a, call (exec a)).

Definition body_ops (i : nat) (root : path) (files : list string) : list op :=
  Mkdir root :: ((λ file, Copy root file i) <$> files).

(** What [os.walk] yields when nothing changes under [top] meanwhile. *)
Fixpoint walk (o : listing_order) (fuel : nat) (fs : filesys) (top : path)
  : list (path * list string * list string) :=
  match fuel with
  | 0 => []
  | S fuel' =>
      match scandir o fs top with
      | None => []
      | Some (dirs, files) =>
          (top, dirs, files) :: (dirs ≫= λ d, walk o fuel' fs (join top [d]))
      end
  end.

Definition pass_ops (i : nat) (l : list (path * list string * list string))
  : list op :=
  l ≫= λ '(root, _, files), body_ops i root files.

(** The calls of a whole run, in program order, as the initial file
    system determines them. *)
Definition plan (o : listing_order) (copies : nat) (fs : filesys) : list op :=
  MkTarget ::
  (seq 0 copies ≫= λ i, pass_ops i (walk o (S (depth fs)) fs SOURCE_DIR)).

(** [fs'] has under the source root what [fs] has. *)
Definition source_same (fs fs' : filesys) : Prop :=
  ∀ x, fs' !! (SOURCE_DIR ++ x) = fs !! (SOURCE_DIR ++ x).

(** *** Calls that do not interfere *)

(** The call [a] is local to the region [Rg] of the name space, among
    the file systems that satisfy [Inv]: its success and what it leaves
    in the region only depend on the region, and it changes nothing
    outside. *)
Definition local (Inv : filesys → Prop) (Rg : path → Prop) (a : op) : Prop :=
  ∀ s s2 s', Inv s → Inv s2 → (∀ q, Rg q → s2 !! q = s !! q) →
    exec a s = Some s' →
    ∃ s2', exec a s2 = Some s2' ∧
      (∀ q, Rg q → s2' !! q = s' !! q) ∧ (∀ q, ¬ Rg q → s2' !! q = s2 !! q).

Definition stable (Inv : filesys → Prop) (a : op) : Prop :=
  ∀ s s', Inv s → exec a s = Some s' → Inv s'.

(** [a] then [b] can be replaced by [b] then [a]. *)
Definition commutes (Inv : filesys → Prop) (a b : op) : Prop :=
  ∀ s s1 s2, Inv s → exec a s = Some s1 → exec b s1 = Some s2 →
    ∃ s1', exec b s = Some s1' ∧ exec a s1' = Some s2.

(** *** Auxiliary notions used in the statements *)

Definition is_digit (c : ascii) : bool := bool_decide (is_Some (Ascii.is_nat c)).

(** A call as the walk issues it in the file system [fs] during a run of
    [copies] passes: for a directory of [fs] under the source root, a
    file of that directory and a copy index of the run. *)
Definition legit_at (copies : nat) (fs : filesys) (a : op) : Prop :=
  match a with
  | MkTarget => True
  | Mkdir root => ∃ X, root = SOURCE_DIR ++ X ∧ fs !! root = Some Dir
  | Copy root file i =>
      ∃ X, root = SOURCE_DIR ++ X ∧ fs !! root = Some Dir ∧
           is_Some (fs !! (root ++ [file])) ∧ i < copies
  end.

(** A statement [c] keeps the invariant [Inv] and moves the file system
    along [R], whether it completes or raises. *)
Definition respects (Inv : filesys → Prop) (R : relation filesys)
    (c : filesys → outcome) : Prop :=
  ∀ fs, Inv fs → Inv (final_fs (c fs)) ∧ R fs (final_fs (c fs)).

(** Where the copy of [file], found in the source directory [X], lands
    for index [i]: at the generated name, or inside it when a directory
    of that name is in the way. *)
Definition landing (fs : filesys) (X : path) (file : string) (i : nat) : path :=
  let d := TARGET_DIR ++ X ++ [new_filename file i] in
  if bool_decide (fs !! d = Some Dir) then d ++ [file] else d.

(** *** How a run changes the file system *)

(** The directories the script may create: the target root with its
    ancestors, and the counterparts of the source directories. *)
Definition mirrored (fs : filesys) (q : path) : Prop :=
  q ≠ [] ∧
  (q `prefix_of` TARGET_DIR ∨
   ∃ X, q = TARGET_DIR ++ X ∧ fs !! (SOURCE_DIR ++ X) = Some Dir).

(** What every library call of the script guarantees: the source tree
    is untouched, directories and files stay what they are, and only
    mirrored directories appear. *)
Definition evolves (fs fs' : filesys) : Prop :=
  (∀ x, fs' !! (SOURCE_DIR ++ x) = fs !! (SOURCE_DIR ++ x)) ∧
  (∀ q, fs !! q = Some Dir → fs' !! q = Some Dir) ∧
  (∀ q b d, fs !! q = Some (File b d) → ∃ b' d', fs' !! q = Some (File b' d')) ∧
  (∀ q, fs' !! q = Some Dir → fs !! q = Some Dir ∨ (fs !! q = None ∧ mirrored fs q)).

(** [q] is the path generated for a copy of a source file holding [data]. *)
Definition generated (copies : nat) (fs : filesys) (q : path) (data : list byte)
  : Prop :=
  ∃ X file i r, i < copies ∧
    fs !! (SOURCE_DIR ++ X ++ [file]) = Some (File r data) ∧
    q = TARGET_DIR ++ X ++ [new_filename file i].

(** No directory stands where a copy is to be written: neither in the
    target tree beforehand, nor as the counterpart of a source directory
    that bears a generated name. *)
Definition no_clash (copies : nat) (fs : filesys) : Prop :=
  ∀ X file i r data, i < copies →
    fs !! (SOURCE_DIR ++ X ++ [file]) = Some (File r data) →
    fs !! (TARGET_DIR ++ X ++ [new_filename file i]) ≠ Some Dir ∧
    fs !! (SOURCE_DIR ++ X ++ [new_filename file i]) ≠ Some Dir.

(** The changes of a run in which no copy is diverted: a path keeps
    its entry, or becomes a new directory, or holds a generated copy;
    and a generated copy stays. *)
Definition copies_only (copies : nat) (fs0 fs fs' : filesys) : Prop :=
  (∀ q, fs' !! q = fs !! q ∨
        (fs !! q = None ∧ fs' !! q = Some Dir) ∨
        (∃ data, generated copies fs0 q data ∧ fs' !! q = Some (File true data))) ∧
  (∀ q data, generated copies fs0 q data →
     fs !! q = Some (File true data) → fs' !! q = Some (File true data)).

(** The path generated for the copy of index [i] of [file], found in the
    source directory of relative path [X]. *)
Definition generated_path (X : path) (file : string) (i : nat) : path :=
  TARGET_DIR ++ X ++ [new_filename file i].

(** The relative path of the copy of index [i] of the file of relative
    path [p]. *)
Definition renamed (i : nat) (p : path) : path :=
  parent p ++ [new_filename (basename p) i].

(** *** Decision procedures for concrete file systems *)

Global Instance proper_name_dec c : Decision (proper_name c).
Proof. unfold proper_name. apply _. Defined.

Definition wf_check (fs : filesys) : bool :=
  forallb (λ kn : path * node,
    match kn.1 with
    | [] => true
    | _ => (bool_decide (parent kn.1 = []) ||
            bool_decide (fs !! parent kn.1 = Some Dir))
           && bool_decide (proper_name (basename kn.1))
    end) (map_to_list fs).

Definition no_clash_check (copies : nat) (fs : filesys) : bool :=
  forallb (λ kn : path * node,
    match kn.2, relative_to SOURCE_DIR kn.1 with
    | File _ _, Some ((_ :: _) as rel) =>
        forallb (λ i,
          let g := new_filename (basename rel) i in
          negb (bool_decide (fs !! (TARGET_DIR ++ parent rel ++ [g]) = Some Dir)) &&
          negb (bool_decide (fs !! (SOURCE_DIR ++ parent rel ++ [g]) = Some Dir)))
          (seq 0 copies)
    | _, _ => true
    end) (map_to_list fs).

(** *** Example file systems *)

(** [DATA/{a.txt, sub/b.txt}], no target yet. *)
Definition ex_tree : filesys :=
  add_file (SOURCE_DIR ++ ["sub"; "b.txt"]) true ["b"%byte]
    (add_file (SOURCE_DIR ++ ["a.txt"]) true ["a"%byte] ∅).

(** [DATA/README]. *)
Definition ex_readme : filesys :=
  add_file (SOURCE_DIR ++ ["README"]) true ["r"%byte] ∅.

(** [DATA/{g_copy0, g_copy0_copy1/g}]: a source directory that bears the
    name generated for a file beside it. *)
Definition ex_clash : filesys :=
  add_file (SOURCE_DIR ++ ["g_copy0_copy1"; "g"]) true ["b"%byte]
    (add_file (SOURCE_DIR ++ ["g_copy0"]) true ["a"%byte] ∅).

(** No source root; a regular file stands at the path of the target root. *)
Definition ex_target_is_file : filesys :=
  add_file TARGET_DIR true [] ∅.

(** No source root, no target root. *)
Definition ex_no_source : filesys :=
  add_dir (removelast SOURCE_DIR) ∅.

(** [ex_tree] with a directory [old] already under the target root. *)
Definition ex_old_dir : filesys :=
  add_dir (TARGET_DIR ++ ["old"]) ex_tree.

(** [DATA/a], and under the target root a directory [a_copy0] holding a
    file [a] of its own. *)
Definition ex_diverted : filesys :=
  add_file (TARGET_DIR ++ ["a_copy0"; "a"]) true ["z"%byte]
    (add_file (SOURCE_DIR ++ ["a"]) true ["a"%byte] ∅).

(** [DATA/{a, b}] where [a] cannot be read. *)
Definition ex_unreadable : filesys :=
  add_file (SOURCE_DIR ++ ["b"]) true ["b"%byte]
    (add_file (SOURCE_DIR ++ ["a"]) false ["a"%byte] ∅).

(** [DATA/{a.txt, b.txt, sub/c.txt}], no target yet. *)
Definition ex_pair : filesys :=
  add_file (SOURCE_DIR ++ ["sub"; "c.txt"]) true ["c"%byte]
    (add_file (SOURCE_DIR ++ ["b.txt"]) true ["b"%byte]
      (add_file (SOURCE_DIR ++ ["a.txt"]) true ["a"%byte] ∅)).

(** [ex_tree] with a regular file [sub] under the target root, where
    the counterpart of the source directory [sub] is to be created. *)
Definition ex_blocked : filesys :=
  add_file (TARGET_DIR ++ ["sub"]) true [] ex_tree.

(** A regular file stands at the path of the source root; no target
    root. *)
Definition ex_source_is_file : filesys :=
  add_file SOURCE_DIR true ["x"%byte] ∅.

(** The file systems met while the walk of [fs] is at or below the
    source directory [X]: well formed, with the source tree of [fs], and
    with the counterpart of [X] in place. *)
Definition settled (fs : filesys) (X : path) (s : filesys) : Prop :=
  wf s ∧ source_same fs s ∧ s !! (TARGET_DIR ++ X) = Some Dir.

(** The paths at or below [p]. *)
Definition below (p : path) (q : path) : Prop := p `prefix_of` q.

(** The two paths a copy may touch: its generated path and, inside it,
    the name of the source file. *)
Definition copy_region (X : path) (file : string) (i : nat) (q : path) : Prop :=
  q = generated_path X file i ∨ q = generated_path X file i ++ [file].

Global Instance below_dec p q : Decision (below p q).
Proof. unfold below. apply _. Defined.

Global Instance copy_region_dec X file i q : Decision (copy_region X file i q).
Proof. unfold copy_region. apply _. Defined.

(** * Properties *)

(** ** Strings *)

Section strings.
Implicit Types (l b a m : list ascii) (P : ascii → bool).

Lemma existsb_false_app P l m :
  existsb P (l ++ m) = false ↔ existsb P l = false ∧ existsb P m = false.
Proof. rewrite existsb_app. apply orb_false_iff. Qed.

Lemma rsplit_None P l : rsplit P l = None ↔ existsb P l = false.
Proof.
  induction l as [|c l IH]; simpl; [done|].
  destruct (rsplit P l) as [[b a]|].
  - split; [done|]. intros [_ H]%orb_false_iff.
    apply IH in H. done.
  - destruct (P c); simpl; [done|]. split; [|done]. intros _. by apply IH.
Qed.

Lemma rsplit_last P l c a :
  P c = true → existsb P a = false → rsplit P (l ++ c :: a) = Some (l, a).
Proof.
  intros Hc Ha. induction l as [|x l IH]; simpl.
  - apply rsplit_None in Ha. by rewrite Ha, Hc.
  - by rewrite IH.
Qed.

Lemma rsplit_Some P l b a :
  rsplit P l = Some (b, a) →
  ∃ c, l = b ++ c :: a ∧ P c = true ∧ existsb P a = false.
Proof.
  revert b. induction l as [|x l IH]; intros b; simpl; [done|].
  destruct (rsplit P l) as [[b' a']|] eqn:E.
  - intros [= <- <-]. destruct (IH b' eq_refl) as (c & -> & ? & ?).
    by exists c.
  - destruct (P x) eqn:Hx; [|done]. intros [= <- <-].
    exists x. by apply rsplit_None in E.
Qed.

(** Appending characters that do not satisfy [P] moves no cut. *)
Lemma rsplit_app_clean P l m :
  existsb P m = false →
  rsplit P (l ++ m) = (λ ba, (ba.1, ba.2 ++ m)) <$> rsplit P l.
Proof.
  intros Hm. destruct (rsplit P l) as [[b a]|] eqn:E; simpl.
  - apply rsplit_Some in E as (c & -> & Hc & Ha).
    rewrite <-app_assoc. simpl. apply rsplit_last; [done|].
    by apply existsb_false_app.
  - apply rsplit_None. apply existsb_false_app. by apply rsplit_None in E.
Qed.

Lemma splitext_chars_app l n e : splitext_chars l = (n, e) → l = n ++ e.
Proof.
  unfold splitext_chars.
  destruct (rsplit is_extsep l) as [[b a]|] eqn:E.
  - apply rsplit_Some in E as (c & -> & Hc & Ha).
    apply bool_decide_eq_true in Hc as ->.
    repeat case_match; intros [= <- <-]; by rewrite ?app_nil_r.
  - intros [= <- <-]. by rewrite app_nil_r.
Qed.

(** Inserting characters that are neither dots nor separators in
    front of the extension leaves the split where it was. *)
Lemma splitext_chars_insert l n e m :
  splitext_chars l = (n, e) →
  existsb is_extsep m = false → existsb is_sep m = false →
  splitext_chars (n ++ m ++ e) = (n ++ m, e).
Proof.
  intros Hl Hdot Hsep. unfold splitext_chars in Hl.
  destruct (rsplit is_extsep l) as [[b a]|] eqn:E.
  - apply rsplit_Some in E as (c & -> & Hc & Ha).
    pose proof Hc as ->%bool_decide_eq_true.
    destruct (existsb is_sep a) eqn:Hsa.
    { injection Hl as <- <-. rewrite app_nil_r, <-app_assoc. simpl.
      unfold splitext_chars. rewrite rsplit_last; [|done|].
      - by rewrite existsb_app, Hsa.
      - by apply existsb_false_app. }
    destruct (existsb _ (match rsplit is_sep b with
                         | Some (_, f) => f | None => b end)) eqn:Hf.
    + injection Hl as <- <-. unfold splitext_chars.
      rewrite (app_assoc b m), rsplit_last, Hsa by done.
      rewrite (rsplit_app_clean _ _ _ Hsep).
      destruct (rsplit is_sep b) as [[b' f]|]; simpl;
        by rewrite existsb_app, Hf.
    + injection Hl as <- <-. rewrite app_nil_r, <-app_assoc. simpl.
      unfold splitext_chars. rewrite rsplit_last; [|done|].
      * rewrite existsb_app, Hsa, Hsep. simpl. by rewrite Hf.
      * by apply existsb_false_app.
  - injection Hl as <- <-. rewrite app_nil_r. unfold splitext_chars.
    rewrite (rsplit_app_clean _ _ _ Hdot), E. done.
Qed.

Lemma chars_str l : chars (str l) = l.
Proof. apply String.list_ascii_of_string_of_list_ascii. Qed.

Lemma str_chars s : str (chars s) = s.
Proof. apply String.string_of_list_ascii_of_string. Qed.

Lemma chars_inj s1 s2 : chars s1 = chars s2 → s1 = s2.
Proof. intros H. by rewrite <-(str_chars s1), <-(str_chars s2), H. Qed.

Lemma chars_append s1 s2 : chars (s1 +:+ s2) = chars s1 ++ chars s2.
Proof. induction s1 as [|c s1 IH]; simpl; [done|]. unfold chars in *. by rewrite IH. Qed.

Lemma str_app l1 l2 : str (l1 ++ l2) = str l1 +:+ str l2.
Proof. apply chars_inj. by rewrite chars_append, !chars_str. Qed.

End strings.

Section digits.

Lemma pretty_N_char_digit x : is_digit (pretty_N_char x) = true.
Proof. unfold pretty_N_char. by repeat case_match. Qed.

Lemma pretty_N_go_digits x s :
  Forall (λ c, is_digit c = true) (chars s) →
  Forall (λ c, is_digit c = true) (chars (pretty_N_go x s)).
Proof.
  revert s. induction (N.lt_wf_0 x) as [x _ IH]; intros s Hs.
  destruct (decide (x = 0)%N) as [->|Hx].
  - by rewrite pretty_N_go_0.
  - rewrite pretty_N_go_step by lia. apply IH.
    + apply N.div_lt; lia.
    + constructor; [apply pretty_N_char_digit|done].
Qed.

Lemma pretty_nat_digits (i : nat) :
  Forall (λ c, is_digit c = true) (chars (pretty i)).
Proof.
  unfold pretty, pretty_nat, pretty, pretty_N. case_decide.
  - by repeat constructor.
  - apply pretty_N_go_digits. constructor.
Qed.

Lemma digits_no_extsep l :
  Forall (λ c, is_digit c = true) l → existsb is_extsep l = false.
Proof.
  induction 1 as [|c l Hc _ IH]; simpl; [done|]. rewrite IH, orb_false_r.
  unfold is_extsep. case_bool_decide; [subst; done|done].
Qed.

Lemma digits_no_sep l :
  Forall (λ c, is_digit c = true) l → existsb is_sep l = false.
Proof.
  induction 1 as [|c l Hc _ IH]; simpl; [done|]. rewrite IH, orb_false_r.
  unfold is_sep. repeat case_bool_decide; subst; done.
Qed.

(** Two lists that end in a run of digits after a non-digit agree on
    the run and on what precedes it. *)
Lemma digit_run_unique (d1 d2 r1 r2 : list ascii) x1 x2 :
  Forall (λ c, is_digit c = true) d1 → Forall (λ c, is_digit c = true) d2 →
  is_digit x1 = false → is_digit x2 = false →
  d1 ++ x1 :: r1 = d2 ++ x2 :: r2 → d1 = d2 ∧ r1 = r2.
Proof.
  intros H1. revert d2. induction H1 as [|c d1 Hc _ IH]; intros d2 H2 Hx1 Hx2.
  - destruct H2 as [|c2 d2 Hc2 _]; simpl; [naive_solver|].
    intros [= -> _]. congruence.
  - destruct H2 as [|c2 d2 Hc2 H2]; simpl.
    + intros [= -> _]. congruence.
    + intros [= -> Heq]. destruct (IH d2 H2 Hx1 Hx2 Heq) as [-> ->]. done.
Qed.

Lemma copy_suffix_unique (n1 n2 d1 d2 : list ascii) :
  Forall (λ c, is_digit c = true) d1 → Forall (λ c, is_digit c = true) d2 →
  n1 ++ chars "_copy" ++ d1 = n2 ++ chars "_copy" ++ d2 →
  n1 = n2 ∧ d1 = d2.
Proof.
  intros H1 H2 Heq. apply (f_equal reverse) in Heq.
  rewrite !reverse_app in Heq. simpl in Heq.
  rewrite <-!app_assoc in Heq. simpl in Heq.
  apply digit_run_unique in Heq as [Hd Hr]; [|by apply Forall_reverse..|done|done].
  apply (inj reverse) in Hd. split; [|done].
  apply (inj reverse). by simplify_list_eq.
Qed.

End digits.

Section new_filename.

Lemma new_filename_chars file i :
  chars (new_filename file i) =
  (splitext_chars (chars file)).1 ++ (chars "_copy" ++ chars (pretty i))
    ++ (splitext_chars (chars file)).2.
Proof.
  unfold new_filename, splitext.
  destruct (splitext_chars (chars file)) as [n e]. cbn [fst snd].
  by rewrite !chars_append, !chars_str, <-app_assoc.
Qed.

Lemma copy_infix_clean (i : nat) :
  existsb is_extsep (chars "_copy" ++ chars (pretty i)) = false ∧
  existsb is_sep (chars "_copy" ++ chars (pretty i)) = false.
Proof.
  split; apply existsb_false_app; split; try done.
  - apply digits_no_extsep, pretty_nat_digits.
  - apply digits_no_sep, pretty_nat_digits.
Qed.

(** Splitting a generated name gives back the stem with its index and
    the extension of the original name. *)
Lemma splitext_new_filename file i :
  splitext_chars (chars (new_filename file i)) =
  ((splitext_chars (chars file)).1 ++ chars "_copy" ++ chars (pretty i),
   (splitext_chars (chars file)).2).
Proof.
  rewrite new_filename_chars.
  destruct (splitext_chars (chars file)) as [n e] eqn:E. simpl.
  destruct (copy_infix_clean i) as [Hd Hs].
  apply (splitext_chars_insert _ _ _ _ E Hd Hs).
Qed.

Lemma new_filename_inj file1 i1 file2 i2 :
  new_filename file1 i1 = new_filename file2 i2 → file1 = file2 ∧ i1 = i2.
Proof.
  intros Heq.
  pose proof (splitext_new_filename file1 i1) as H1.
  pose proof (splitext_new_filename file2 i2) as H2.
  rewrite Heq, H2 in H1. clear H2 Heq.
  destruct (splitext_chars (chars file1)) as [n1 e1] eqn:E1.
  destruct (splitext_chars (chars file2)) as [n2 e2] eqn:E2.
  simpl in H1. injection H1 as Hn He.
  apply copy_suffix_unique in Hn as [Hn Hd]; [|apply pretty_nat_digits..].
  apply chars_inj in Hd. apply (inj pretty) in Hd.
  split; [|done]. apply chars_inj.
  rewrite (splitext_chars_app _ _ _ E1), (splitext_chars_app _ _ _ E2).
  congruence.
Qed.

Lemma new_filename_proper file i : proper_name (new_filename file i).
Proof.
  assert (∀ s, In "_"%char (chars s) → proper_name s) as Hin.
  { intros s Hs. split; intros ->; cbv in Hs; intuition discriminate. }
  apply Hin. rewrite new_filename_chars.
  apply in_or_app. right. apply in_or_app. left. simpl. auto.
Qed.

End new_filename.

(** ** Paths *)

Section paths.
Implicit Types (p q a b x : path) (c : string).

Lemma foldl_norm_step_proper a p :
  Forall proper_name p → foldl norm_step a p = a ++ p.
Proof.
  intros Hp. revert a. induction Hp as [|c p [Hc1 Hc2] _ IH]; intros a; simpl.
  - by rewrite app_nil_r.
  - unfold norm_step at 2. rewrite !decide_False by done.
    by rewrite IH, <-app_assoc.
Qed.

Lemma normpath_proper p : Forall proper_name p → normpath p = p.
Proof. apply (foldl_norm_step_proper []). Qed.

Lemma normpath_app_proper a p :
  Forall proper_name p → normpath (a ++ p) = normpath a ++ p.
Proof. intros Hp. unfold normpath. by rewrite foldl_app, foldl_norm_step_proper. Qed.

Lemma normpath_app_curdir a p :
  Forall proper_name p → normpath (a ++ curdir :: p) = normpath a ++ p.
Proof.
  intros Hp. unfold normpath. rewrite foldl_app. simpl.
  unfold norm_step at 2. rewrite decide_True by done.
  by apply foldl_norm_step_proper.
Qed.

Lemma normpath_is_proper p : Forall proper_name (normpath p).
Proof.
  unfold normpath.
  cut (∀ a, Forall proper_name a → Forall proper_name (foldl norm_step a p)).
  { intros H. apply H. constructor. }
  induction p as [|c p IH]; intros a Ha; simpl; [done|].
  apply IH. unfold norm_step. repeat case_decide; [done| |].
  - destruct a as [|c' a] using rev_ind; [done|].
    rewrite removelast_last. by apply Forall_app in Ha as [? _].
  - apply Forall_app. split; [done|]. by repeat constructor.
Qed.

Lemma common_len_app a x : common_len a (a ++ x) = length a.
Proof. induction a as [|c a IH]; simpl; [by destruct x|]. by rewrite decide_True, IH. Qed.

Lemma relpath_under a x :
  relpath (a ++ x) a = match x with [] => [curdir] | _ => x end.
Proof.
  unfold relpath. rewrite common_len_app, Nat.sub_diag, drop_app_length.
  simpl. by destruct x.
Qed.

Lemma relative_to_Some a k x : relative_to a k = Some x ↔ k = a ++ x.
Proof.
  revert k. induction a as [|c a IH]; intros k; simpl.
  - split; congruence.
  - destruct k as [|c' k]; [split; discriminate|].
    case_decide as Hc.
    + subst. rewrite IH. split; [by intros ->|by intros [= ->]].
    + split; [done|]. intros [= ? ?]. by destruct Hc.
Qed.

Lemma relative_to_app a x : relative_to a (a ++ x) = Some x.
Proof. by apply relative_to_Some. Qed.

Lemma relative_to_inj a k1 k2 x :
  relative_to a k1 = Some x → relative_to a k2 = Some x → k1 = k2.
Proof. rewrite !relative_to_Some. congruence. Qed.

Lemma parent_snoc p c : parent (p ++ [c]) = p.
Proof. apply removelast_last. Qed.

Lemma basename_snoc p c : basename (p ++ [c]) = c.
Proof. apply last_last. Qed.

(** *** The two roots of the script *)

Lemma SOURCE_DIR_proper : Forall proper_name SOURCE_DIR.
Proof. repeat constructor; discriminate. Qed.

Lemma TARGET_DIR_proper : Forall proper_name TARGET_DIR.
Proof. repeat constructor; discriminate. Qed.

(** Neither root lies under the other. *)
Lemma roots_apart x y : SOURCE_DIR ++ x ≠ TARGET_DIR ++ y.
Proof. discriminate. Qed.

Lemma roots_length : length SOURCE_DIR = length TARGET_DIR.
Proof. reflexivity. Qed.

Lemma TARGET_DIR_nonempty x : TARGET_DIR ++ x ≠ [].
Proof. discriminate. Qed.

Lemma SOURCE_DIR_nonempty x : SOURCE_DIR ++ x ≠ [].
Proof. discriminate. Qed.

End paths.

Global Opaque SOURCE_DIR TARGET_DIR.

(** ** The library calls *)

Section primitives.
Implicit Types (fs : filesys) (p q pre rest r : path) (c : string).

Lemma isdir_proper fs p :
  Forall proper_name p → p ≠ [] →
  isdir fs p = bool_decide (fs !! p = Some Dir).
Proof.
  intros Hp Hne. unfold isdir. rewrite normpath_proper by done.
  by destruct p.
Qed.

Lemma wf_proper fs k : wf fs → is_Some (fs !! k) → Forall proper_name k.
Proof.
  intros Hwf. induction k as [|c k IH] using rev_ind; intros Hk; [constructor|].
  destruct (Hwf k c Hk) as [[->|Hd] Hc].
  - by apply Forall_singleton.
  - apply Forall_app. split; [|by apply Forall_singleton]. apply IH. by rewrite Hd.
Qed.

Lemma wf_prefix_dir fs p x :
  wf fs → is_Some (fs !! (p ++ x)) → x ≠ [] → p ≠ [] → fs !! p = Some Dir.
Proof.
  intros Hwf. induction x as [|c x IH] using rev_ind; intros Hk Hx Hp; [done|].
  rewrite app_assoc in Hk. destruct (Hwf _ c Hk) as [[Hnil|Hd] _].
  - by apply app_eq_nil in Hnil as [? _].
  - destruct x as [|c' x'] using rev_ind; [by rewrite app_nil_r in Hd|].
    apply IH; [by rewrite Hd| |done]. by destruct x'.
Qed.

(** *** makedirs *)

(** A lookup either is unchanged or finds a directory that was created
    on the way down. *)
Lemma makedirs_from_lookup pre rest fs fs' q :
  makedirs_from pre rest fs = Some fs' →
  fs' !! q = fs !! q ∨
  (fs !! q = None ∧ fs' !! q = Some Dir ∧
   ∃ r, r ≠ [] ∧ r `prefix_of` rest ∧ q = pre ++ r).
Proof.
  revert pre fs. induction rest as [|c rest IH]; intros pre fs; simpl.
  { intros [= <-]. by left. }
  destruct (fs !! (pre ++ [c])) as [[]|] eqn:E; [done| |]; intros H.
  - destruct (IH _ _ H) as [?|(?&?&r&?&?&->)]; [by left|].
    right. split_and!; [done..|]. exists (c :: r).
    split_and!; [done|by apply prefix_cons|by rewrite <-app_assoc].
  - destruct (IH _ _ H) as [Heq|(Hn&?&r&?&?&->)].
    + destruct (decide (q = pre ++ [c])) as [->|Hne].
      * rewrite lookup_insert_eq in Heq. right. split_and!; [done..|].
        exists [c]. split_and!; [done|by apply prefix_cons, prefix_nil|done].
      * rewrite lookup_insert_ne in Heq by done. by left.
    + apply lookup_insert_None in Hn as [Hn _].
      right. split_and!; [done..|]. exists (c :: r).
      split_and!; [done|by apply prefix_cons|by rewrite <-app_assoc].
Qed.

Lemma makedirs_from_preserves pre rest fs fs' q n :
  makedirs_from pre rest fs = Some fs' → fs !! q = Some n → fs' !! q = Some n.
Proof.
  intros H Hq. destruct (makedirs_from_lookup _ _ _ _ q H) as [->|[? _]]; congruence.
Qed.

(** Every directory on the way down exists afterwards. *)
Lemma makedirs_from_dirs pre rest fs fs' r :
  makedirs_from pre rest fs = Some fs' →
  r ≠ [] → r `prefix_of` rest → fs' !! (pre ++ r) = Some Dir.
Proof.
  revert pre fs r. induction rest as [|c rest IH]; intros pre fs r H Hr Hpre.
  { apply prefix_nil_inv in Hpre. done. }
  destruct r as [|c' r]; [done|].
  apply prefix_cons_inv_1 in Hpre as Hc. subst c'.
  apply prefix_cons_inv_2 in Hpre.
  simpl in H.
  assert (∃ fs1, makedirs_from (pre ++ [c]) rest fs1 = Some fs'
                 ∧ fs1 !! (pre ++ [c]) = Some Dir) as (fs1 & H1 & Hd).
  { destruct (fs !! (pre ++ [c])) as [[]|] eqn:E; [done|by exists fs|].
    exists (<[pre ++ [c] := Dir]> fs). by rewrite lookup_insert_eq. }
  destruct r as [|c' r].
  - eapply makedirs_from_preserves; done.
  - rewrite (cons_middle c), app_assoc. by apply (IH _ fs1).
Qed.

(** The call raises exactly when a regular file is in the way. *)
Lemma makedirs_from_is_Some pre rest fs :
  is_Some (makedirs_from pre rest fs) ↔
  ∀ r, r ≠ [] → r `prefix_of` rest → ∀ b d, fs !! (pre ++ r) ≠ Some (File b d).
Proof.
  revert pre fs. induction rest as [|c rest IH]; intros pre fs; simpl.
  { split; [|done]. intros _ r Hr Hp. by apply prefix_nil_inv in Hp. }
  assert (∀ fs1, (∀ q, q ≠ pre ++ [c] → fs1 !! q = fs !! q) →
    fs !! (pre ++ [c]) ≠ None ∨ fs1 !! (pre ++ [c]) = Some Dir →
    (∀ b d, fs !! (pre ++ [c]) ≠ Some (File b d)) →
    is_Some (makedirs_from (pre ++ [c]) rest fs1) ↔
    ∀ r, r ≠ [] → r `prefix_of` c :: rest →
         ∀ b d, fs !! (pre ++ r) ≠ Some (File b d)) as Hstep.
  { intros fs1 Hfs1 Hc1 Hc. rewrite IH. split.
    - intros H r Hr Hp b d. destruct r as [|c' r]; [done|].
      apply prefix_cons_inv_1 in Hp as Hcc. subst c'.
      apply prefix_cons_inv_2 in Hp. destruct r as [|c' r]; [apply Hc|].
      rewrite (cons_middle c), app_assoc, <-Hfs1.
      + by apply H.
      + intros Heq%(f_equal length). rewrite !length_app in Heq. simpl in Heq. lia.
    - intros H r Hr Hp b d. rewrite Hfs1.
      + rewrite <-app_assoc. apply H; [done|by apply prefix_cons].
      + intros Heq%(f_equal length). rewrite !length_app in Heq.
        destruct r; [done|]. simpl in Heq. lia. }
  destruct (fs !! (pre ++ [c])) as [[b d|]|] eqn:E.
  - split; [by intros []|]. intros H.
    destruct (H [c] ltac:(done) ltac:(by apply prefix_cons, prefix_nil) b d E).
  - apply Hstep; [done|by left|done].
  - apply Hstep.
    + intros q Hq. by rewrite lookup_insert_ne.
    + right. by rewrite lookup_insert_eq.
    + done.
Qed.

(** An existing directory is accepted and nothing changes. *)
Lemma makedirs_from_existing pre rest fs :
  (∀ r, r ≠ [] → r `prefix_of` rest → fs !! (pre ++ r) = Some Dir) →
  makedirs_from pre rest fs = Some fs.
Proof.
  revert pre. induction rest as [|c rest IH]; intros pre H; simpl; [done|].
  rewrite (H [c]); [|done|by apply prefix_cons, prefix_nil].
  apply IH. intros r Hr Hp. rewrite <-app_assoc. apply H; [done|by apply prefix_cons].
Qed.

Lemma makedirs_existing fs p :
  wf fs → Forall proper_name p → fs !! p = Some Dir → makedirs p fs = Some fs.
Proof.
  intros Hwf Hp Hd. unfold makedirs. rewrite normpath_proper by done.
  apply makedirs_from_existing. intros r Hr [k ->]. simpl.
  destruct k as [|c k]; [by rewrite app_nil_r in Hd|].
  eapply wf_prefix_dir; [done|by rewrite Hd|done..].
Qed.

Lemma makedirs_lookup p fs fs' q :
  makedirs p fs = Some fs' →
  fs' !! q = fs !! q ∨
  (fs !! q = None ∧ fs' !! q = Some Dir ∧ q ≠ [] ∧ q `prefix_of` normpath p).
Proof.
  intros H. destruct (makedirs_from_lookup _ _ _ _ q H) as [?|(?&?&r&?&?&->)]; auto.
Qed.

Lemma makedirs_leaf p fs fs' :
  makedirs p fs = Some fs' → normpath p ≠ [] → fs' !! normpath p = Some Dir.
Proof. intros H Hne. by apply (makedirs_from_dirs [] _ _ _ _ H). Qed.

Lemma makedirs_wf p fs fs' : wf fs → makedirs p fs = Some fs' → wf fs'.
Proof.
  intros Hwf H q c Hq.
  destruct (makedirs_lookup _ _ _ (q ++ [c]) H) as [Heq|(_&_&_&Hpre)].
  - rewrite Heq in Hq. destruct (Hwf q c Hq) as [[->|Hd] Hc]; [by auto|].
    split; [|done]. right. by eapply makedirs_from_preserves.
  - split.
    + destruct q as [|c' q']; [by left|]. right.
      apply (makedirs_from_dirs [] _ _ _ _ H); [done|].
      etrans; [|done]. by apply prefix_app_r.
    + pose proof (normpath_is_proper p) as Hp. destruct Hpre as [k Hk].
      rewrite Hk in Hp. apply Forall_app in Hp as [Hp _].
      apply Forall_app in Hp as [_ Hp]. by inversion Hp.
Qed.

(** *** copy *)

Lemma copy_Some src dst fs fs' :
  copy src dst fs = Some fs' →
  ∃ data d,
    fs !! normpath src = Some (File true data) ∧
    d = normpath (if isdir fs dst then join dst [basename src] else dst) ∧
    d ≠ normpath src ∧ isdir fs d = false ∧ isdir fs (parent d) = true ∧
    fs' = <[d := File true data]> fs.
Proof.
  unfold copy. intros H.
  destruct (fs !! normpath src) as [[[] data|]|]; try done.
  repeat case_decide; try done.
  destruct (isdir fs (normpath _)) eqn:E1; [done|].
  destruct (isdir fs (parent _)) eqn:E2; [|done].
  injection H as <-. by exists data, (normpath (if isdir fs dst then join dst [basename src] else dst)).
Qed.

End primitives.

(** ** The calls of the script *)

Section calls.
Implicit Types (fs : filesys) (X : path) (file g : string) (i : nat).

Lemma normpath_join_proper (a p : path) :
  Forall proper_name p → normpath (join a p) = normpath a ++ p.
Proof. apply normpath_app_proper. Qed.

Lemma basename_join (p : path) c : basename (join p [c]) = c.
Proof. apply basename_snoc. Qed.

Lemma dest_path_normal X :
  Forall proper_name X →
  normpath (join TARGET_DIR (relpath (SOURCE_DIR ++ X) SOURCE_DIR))
  = TARGET_DIR ++ X.
Proof.
  intros HX. unfold join. rewrite relpath_under. destruct X as [|c X].
  - rewrite normpath_app_curdir by done.
    by rewrite normpath_proper by apply TARGET_DIR_proper.
  - rewrite normpath_proper; [done|].
    apply Forall_app. split; [apply TARGET_DIR_proper|done].
Qed.

Lemma dest_file_normal X (l : path) :
  Forall proper_name X → Forall proper_name l →
  normpath (join (join TARGET_DIR (relpath (SOURCE_DIR ++ X) SOURCE_DIR)) l)
  = TARGET_DIR ++ X ++ l.
Proof.
  intros HX Hl. unfold join at 1. rewrite normpath_app_proper by done.
  by rewrite (dest_path_normal X HX), <-app_assoc.
Qed.

Lemma src_file_normal X file :
  Forall proper_name X → proper_name file →
  normpath (join (SOURCE_DIR ++ X) [file]) = SOURCE_DIR ++ X ++ [file].
Proof.
  intros HX Hf. unfold join. rewrite <-app_assoc. apply normpath_proper.
  apply Forall_app. split; [apply SOURCE_DIR_proper|].
  apply Forall_app. split; [done|by apply Forall_singleton].
Qed.

Lemma isdir_normal fs p q :
  normpath p = q → q ≠ [] → isdir fs p = bool_decide (fs !! q = Some Dir).
Proof. intros <- Hq. unfold isdir. by destruct (normpath p). Qed.

Lemma exec_Mkdir X fs :
  Forall proper_name X →
  exec (Mkdir (SOURCE_DIR ++ X)) fs = makedirs_from [] (TARGET_DIR ++ X) fs.
Proof. intros HX. simpl. unfold makedirs. by rewrite dest_path_normal. Qed.

Lemma exec_MkTarget fs :
  exec MkTarget fs = makedirs_from [] TARGET_DIR fs.
Proof.
  simpl. unfold makedirs. by rewrite normpath_proper by apply TARGET_DIR_proper.
Qed.

Lemma landing_proper fs X file i :
  Forall proper_name X → proper_name file →
  Forall proper_name (landing fs X file i).
Proof.
  intros HX Hf. unfold landing.
  assert (Forall proper_name (TARGET_DIR ++ X ++ [new_filename file i])).
  { apply Forall_app. split; [apply TARGET_DIR_proper|].
    apply Forall_app. split; [done|].
    apply Forall_singleton, new_filename_proper. }
  case_bool_decide; [|done].
  apply Forall_app. split; [done|by apply Forall_singleton].
Qed.

Lemma landing_parent fs X file i :
  parent (landing fs X file i) =
  if bool_decide (fs !! (TARGET_DIR ++ X ++ [new_filename file i]) = Some Dir)
  then TARGET_DIR ++ X ++ [new_filename file i] else TARGET_DIR ++ X.
Proof.
  unfold landing. case_bool_decide.
  - apply parent_snoc.
  - by rewrite app_assoc, parent_snoc.
Qed.

Lemma landing_target fs X file i :
  ∃ y, landing fs X file i = TARGET_DIR ++ y ∧ y ≠ [].
Proof.
  unfold landing. case_bool_decide.
  - exists (X ++ [new_filename file i; file]).
    split; [by rewrite <-!app_assoc|by destruct X].
  - exists (X ++ [new_filename file i]). split; [done|by destruct X].
Qed.

(** The [shutil.copy] of the loop body, on resolved paths. *)
Lemma exec_Copy X file i fs :
  Forall proper_name X → proper_name file →
  exec (Copy (SOURCE_DIR ++ X) file i) fs =
  match fs !! (SOURCE_DIR ++ X ++ [file]) with
  | Some (File true data) =>
      let d := landing fs X file i in
      if bool_decide (fs !! d = Some Dir) then None
      else if bool_decide (fs !! parent d = Some Dir)
           then Some (<[d := File true data]> fs)
           else None
  | _ => None
  end.
Proof.
  intros HX Hf. simpl. unfold copy.
  pose proof (new_filename_proper file i) as Hg.
  rewrite src_file_normal by done.
  destruct (fs !! (SOURCE_DIR ++ X ++ [file])) as [[[] data|]|]; try done.
  assert (normpath
    (if isdir fs (join (join TARGET_DIR (relpath (SOURCE_DIR ++ X) SOURCE_DIR))
                       [new_filename file i])
     then join (join (join TARGET_DIR (relpath (SOURCE_DIR ++ X) SOURCE_DIR))
                     [new_filename file i])
               [basename (join (SOURCE_DIR ++ X) [file])]
     else join (join TARGET_DIR (relpath (SOURCE_DIR ++ X) SOURCE_DIR))
               [new_filename file i])
    = landing fs X file i) as ->.
  { unfold landing.
    rewrite (isdir_normal fs _ (TARGET_DIR ++ X ++ [new_filename file i]));
      [|by apply dest_file_normal, Forall_singleton|].
    2:{ intros H. by apply TARGET_DIR_nonempty in H. }
    case_bool_decide.
    - rewrite basename_join, normpath_join_proper by by apply Forall_singleton.
      rewrite dest_file_normal; [done|done|by apply Forall_singleton].
    - by apply dest_file_normal, Forall_singleton. }
  destruct (landing_target fs X file i) as (y & Hy & Hyne).
  rewrite decide_False; [|rewrite Hy; apply roots_apart].
  rewrite isdir_proper; [|by apply landing_proper|].
  2:{ rewrite Hy. apply TARGET_DIR_nonempty. }
  simpl. case_bool_decide; [done|].
  rewrite isdir_proper; [done| |].
  - rewrite landing_parent. case_bool_decide.
    + apply Forall_app. split; [apply TARGET_DIR_proper|].
      apply Forall_app. split; [done|by apply Forall_singleton].
    + apply Forall_app. split; [apply TARGET_DIR_proper|done].
  - rewrite landing_parent. case_bool_decide; apply TARGET_DIR_nonempty.
Qed.

End calls.

(** ** Directory listings *)

Section listing.
Context (o : listing_order).
Implicit Types (fs : filesys) (top k : path) (n : string).

Lemma child_name_Some top k n : child_name top k = Some n ↔ k = top ++ [n].
Proof.
  unfold child_name. destruct k as [|c k] using rev_ind.
  - split; [done|]. by destruct top.
  - clear IHk. rewrite removelast_last, last_last.
    destruct (k ++ [c]) eqn:E; [by destruct k|]. rewrite <-E. clear E.
    case_decide as Hk; [subst|].
    + split; [by intros [= ->]|]. by intros [_ [= ->]]%app_inj_tail.
    + split; [done|]. by intros [? _]%app_inj_tail.
Qed.

Lemma elem_of_entries fs top n :
  n ∈ entries fs top ↔ is_Some (fs !! (top ++ [n])).
Proof.
  unfold entries. rewrite elem_of_set_omap. split.
  - intros (k & Hk & ->%child_name_Some). by apply elem_of_dom.
  - intros H. exists (top ++ [n]). split; [by apply elem_of_dom|].
    by apply child_name_Some.
Qed.

Lemma entries_ext fs fs' top :
  (∀ n, fs !! (top ++ [n]) = fs' !! (top ++ [n])) →
  entries fs top = entries fs' top.
Proof.
  intros H. apply set_eq. intros n. by rewrite !elem_of_entries, H.
Qed.

Lemma elem_of_list_dir (X : gset string) n : n ∈ o X ↔ n ∈ X.
Proof. by rewrite (list_dir_perm o X), elem_of_elements. Qed.

Lemma NoDup_list_dir (X : gset string) : NoDup (o X).
Proof. rewrite (list_dir_perm o X). apply NoDup_elements. Qed.

Lemma scandir_proper fs top :
  Forall proper_name top → top ≠ [] →
  scandir o fs top =
  if bool_decide (fs !! top = Some Dir) then
    Some (filter (λ n, entry_is_dir fs top n) (o (entries fs top)),
          filter (λ n, ¬ entry_is_dir fs top n) (o (entries fs top)))
  else None.
Proof.
  intros Hp Hne. unfold scandir.
  by rewrite isdir_proper, normpath_proper by done.
Qed.

(** What a successful listing contains. *)
Lemma scandir_Some fs top dirs files :
  Forall proper_name top → top ≠ [] →
  scandir o fs top = Some (dirs, files) →
  fs !! top = Some Dir ∧
  (∀ d, d ∈ dirs ↔ fs !! (top ++ [d]) = Some Dir) ∧
  (∀ f, f ∈ files ↔ ∃ r data, fs !! (top ++ [f]) = Some (File r data)) ∧
  NoDup dirs ∧ NoDup files.
Proof.
  intros Hp Hne. rewrite scandir_proper by done.
  case_bool_decide as Hd; [|done]. intros [= <- <-].
  split; [done|]. split_and!.
  - intros d. rewrite list_elem_of_filter, elem_of_list_dir, elem_of_entries.
    unfold entry_is_dir. rewrite bool_decide_spec.
    split; [by intros [? _]|]. intros H. by rewrite H.
  - intros f. rewrite list_elem_of_filter, elem_of_list_dir, elem_of_entries.
    unfold entry_is_dir. rewrite bool_decide_spec. split.
    + intros [Hn [[r data|] Hf]]; [eauto|done].
    + intros (r & data & Hf). rewrite Hf. split; [by intros ?|done].
  - apply NoDup_filter, NoDup_list_dir.
  - apply NoDup_filter, NoDup_list_dir.
Qed.

Lemma scandir_is_Some fs top :
  Forall proper_name top → top ≠ [] →
  fs !! top = Some Dir → is_Some (scandir o fs top).
Proof.
  intros Hp Hne Hd. rewrite scandir_proper by done.
  by rewrite bool_decide_eq_true_2.
Qed.

Lemma scandir_None fs top :
  Forall proper_name top → top ≠ [] →
  fs !! top ≠ Some Dir → scandir o fs top = None.
Proof.
  intros Hp Hne Hd. rewrite scandir_proper by done.
  by rewrite bool_decide_eq_false_2.
Qed.

(** The listing of [top] only depends on [top] and its entries. *)
Lemma scandir_ext fs fs' top :
  Forall proper_name top → top ≠ [] →
  fs !! top = fs' !! top →
  (∀ n, fs !! (top ++ [n]) = fs' !! (top ++ [n])) →
  scandir o fs top = scandir o fs' top.
Proof.
  intros Hp Hne Ht Hn. rewrite !scandir_proper by done.
  rewrite (entries_ext fs fs' top Hn), Ht.
  case_bool_decide; [|done]. f_equal. f_equal.
  - apply list_filter_iff. intros n. unfold entry_is_dir. by rewrite Hn.
  - apply list_filter_iff. intros n. unfold entry_is_dir. by rewrite Hn.
Qed.

End listing.

(** ** Control *)

Section control.
Context {A : Type}.
Implicit Types (r : outcome) (k : filesys → outcome) (fs : filesys).
Implicit Types (body : A → filesys → outcome) (l : list A).

Lemma and_then_Done_r r : r >>> Done = r.
Proof. by destruct r. Qed.

Lemma and_then_assoc r k1 k2 : r >>> k1 >>> k2 = r >>> (λ fs, k1 fs >>> k2).
Proof. by destruct r. Qed.

Lemma and_then_Done r k fs' :
  r >>> k = Done fs' ↔ ∃ fs1, r = Done fs1 ∧ k fs1 = Done fs'.
Proof.
  destruct r as [fs1|fs1]; simpl.
  - split; [by exists fs1|]. by intros (? & [= <-] & ?).
  - split; [done|]. by intros (? & ? & _).
Qed.

Lemma foldl_and_then body r l :
  foldl (λ r x, r >>> body x) r l = r >>> for_each l body.
Proof.
  revert r. induction l as [|x l IH]; intros r; simpl.
  - by rewrite and_then_Done_r.
  - rewrite IH. destruct r as [fs|fs]; simpl; [|done].
    unfold for_each at 2. simpl. by rewrite IH.
Qed.

Lemma for_each_nil body fs : for_each [] body fs = Done fs.
Proof. done. Qed.

Lemma for_each_cons body x l fs :
  for_each (x :: l) body fs = body x fs >>> for_each l body.
Proof. unfold for_each at 1. simpl. apply foldl_and_then. Qed.

Lemma for_each_app body l1 l2 fs :
  for_each (l1 ++ l2) body fs = for_each l1 body fs >>> for_each l2 body.
Proof.
  unfold for_each at 1. rewrite foldl_app. apply foldl_and_then.
Qed.

Lemma for_each_Done_split body l1 x l2 fs fs' :
  for_each (l1 ++ x :: l2) body fs = Done fs' →
  ∃ fs1 fs2, for_each l1 body fs = Done fs1 ∧ body x fs1 = Done fs2 ∧
             for_each l2 body fs2 = Done fs'.
Proof.
  rewrite for_each_app. intros (fs1 & H1 & H)%and_then_Done.
  rewrite for_each_cons in H. apply and_then_Done in H as (fs2 & H2 & H3).
  by exists fs1, fs2.
Qed.

Lemma for_each_ext body1 body2 l fs :
  (∀ x fs, x ∈ l → body1 x fs = body2 x fs) →
  for_each l body1 fs = for_each l body2 fs.
Proof.
  revert fs. induction l as [|x l IH]; intros fs H; [done|].
  rewrite !for_each_cons, H by by left.
  destruct (body2 x fs); simpl; [|done]. apply IH. intros. apply H. by right.
Qed.

Lemma call_Done op fs fs' : call op fs = Done fs' ↔ op fs = Some fs'.
Proof. unfold call. destruct (op fs); naive_solver. Qed.

Lemma final_fs_call op fs :
  final_fs (call op fs) = default fs (op fs).
Proof. unfold call. by destruct (op fs). Qed.

End control.

Lemma for_each_fmap {A B} (f : A → B) (body : B → filesys → outcome) l fs :
  for_each (f <$> l) body fs = for_each l (λ x, body (f x)) fs.
Proof.
  revert fs. induction l as [|x l IH]; intros fs; [done|].
  rewrite fmap_cons, !for_each_cons. destruct (body (f x) fs); simpl; [apply IH|done].
Qed.

Lemma walk_body_ops i root dirs files fs :
  walk_body i root dirs files fs = run_ops (body_ops i root files) fs.
Proof.
  unfold walk_body, run_ops, body_ops. rewrite for_each_cons.
  change (call (makedirs (join TARGET_DIR (relpath root SOURCE_DIR))) fs)
    with (call (exec (Mkdir root)) fs).
  destruct (call (exec (Mkdir root)) fs); simpl; [|done].
  by rewrite for_each_fmap.
Qed.

(** ** Invariants of a run

    Whatever holds initially, is kept by every library call the script
    can make, holds at the end of the run; and every call the script
    owes to a directory or a file of the source tree is made. *)

Section run_invariant.
Context (o : listing_order) (copies : nat).
Context (Inv : filesys → Prop) (R : relation filesys) `{!PreOrder R}.
Hypothesis Inv_wf : ∀ fs, Inv fs → wf fs.
Hypothesis R_source : ∀ fs fs' x,
  R fs fs' → fs' !! (SOURCE_DIR ++ x) = fs !! (SOURCE_DIR ++ x).
Hypothesis exec_step : ∀ a fs fs',
  Inv fs → legit_at copies fs a → exec a fs = Some fs' → Inv fs' ∧ R fs fs'.

Local Abbreviation ok fs r := (Inv (final_fs r) ∧ R fs (final_fs r)).

Lemma call_ok a fs : Inv fs → legit_at copies fs a → ok fs (call (exec a) fs).
Proof.
  intros HI Ha. rewrite final_fs_call.
  destruct (exec a fs) as [fs'|] eqn:E; simpl; [by eapply exec_step|done].
Qed.

Lemma seq_ok (c k : filesys → outcome) fs :
  ok fs (c fs) →
  (∀ fs1, c fs = Done fs1 → Inv fs1 → R fs fs1 → ok fs1 (k fs1)) →
  ok fs (c fs >>> k).
Proof.
  destruct (c fs) as [fs1|fs1]; simpl; intros [H1 H2] Hk; [|done].
  destruct (Hk fs1 eq_refl H1 H2). split; [done|by etrans].
Qed.

Lemma for_each_ok {A : Type} (P : filesys → Prop) (l : list A) body fs :
  (∀ fs fs', P fs → R fs fs' → P fs') →
  (∀ x fs, x ∈ l → Inv fs → P fs → ok fs (body x fs)) →
  Inv fs → P fs → ok fs (for_each l body fs).
Proof.
  intros HP. revert fs. induction l as [|x l IH]; intros fs Hb HI HPfs.
  { done. }
  rewrite for_each_cons. apply seq_ok.
  - apply Hb; [by left|done..].
  - intros fs1 _ HI1 HR1. apply IH; [|done|by eapply HP].
    intros y fs2 Hy. apply Hb. by right.
Qed.

Lemma source_path_proper X fs :
  wf fs → is_Some (fs !! (SOURCE_DIR ++ X)) → Forall proper_name X.
Proof.
  intros Hwf H. apply wf_proper in H; [|done]. by apply Forall_app in H as [_ ?].
Qed.

Lemma body_ok i X dirs files fs :
  i < copies → Inv fs → fs !! (SOURCE_DIR ++ X) = Some Dir →
  Forall (λ f, is_Some (fs !! (SOURCE_DIR ++ X ++ [f]))) files →
  ok fs (walk_body i (SOURCE_DIR ++ X) dirs files fs).
Proof.
  intros Hi HI Hd Hf. rewrite walk_body_ops. unfold run_ops, body_ops.
  rewrite for_each_cons. apply seq_ok.
  { apply call_ok; [done|]. by exists X. }
  intros fs1 _ HI1 HR1. rewrite for_each_fmap.
  apply (for_each_ok (λ fs, fs !! (SOURCE_DIR ++ X) = Some Dir ∧
    Forall (λ f, is_Some (fs !! (SOURCE_DIR ++ X ++ [f]))) files)); [| |done|].
  - intros fs2 fs3 [H2 H3] HR. rewrite (R_source _ _ _ HR). split; [done|].
    eapply Forall_impl; [done|]. intros f Hfs. by rewrite (R_source _ _ _ HR).
  - intros f fs2 Hin HI2 [H2 H3]. apply call_ok; [done|].
    exists X. split_and!; [done|done| |done].
    rewrite <-app_assoc. by eapply Forall_forall in H3.
  - rewrite (R_source _ _ _ HR1). split; [done|].
    eapply Forall_impl; [done|]. intros f Hfs. by rewrite (R_source _ _ _ HR1).
Qed.

Lemma source_dir_listing X fs dirs files :
  wf fs → Forall proper_name X →
  scandir o fs (SOURCE_DIR ++ X) = Some (dirs, files) →
  fs !! (SOURCE_DIR ++ X) = Some Dir ∧
  (∀ d, d ∈ dirs ↔ fs !! (SOURCE_DIR ++ X ++ [d]) = Some Dir) ∧
  (∀ f, f ∈ files ↔ ∃ r data, fs !! (SOURCE_DIR ++ X ++ [f]) = Some (File r data)) ∧
  NoDup dirs ∧ NoDup files.
Proof.
  intros Hwf HX E. apply scandir_Some in E.
  - destruct E as (? & Hd & Hf & ? & ?). split_and!; [done| | |done..].
    + intros d. by rewrite Hd, <-app_assoc.
    + intros f. by rewrite Hf, <-app_assoc.
  - apply Forall_app. split; [apply SOURCE_DIR_proper|done].
  - apply SOURCE_DIR_nonempty.
Qed.

Lemma walk_loop_ok i fuel X fs :
  i < copies → Forall proper_name X → Inv fs →
  ok fs (walk_loop o fuel (walk_body i) (SOURCE_DIR ++ X) fs).
Proof.
  intros Hi. revert X fs. induction fuel as [|fuel IH]; intros X fs HX HI; [done|].
  simpl. destruct (scandir o fs (SOURCE_DIR ++ X)) as [[dirs files]|] eqn:E; [|done].
  pose proof (Inv_wf _ HI) as Hwf.
  apply source_dir_listing in E as (Hd & Hdirs & Hfiles & _ & _); [|done..].
  apply seq_ok.
  { apply body_ok; [done..|]. apply Forall_forall. intros f Hf.
    apply Hfiles in Hf as (r & data & ->). done. }
  intros fs1 _ HI1 HR1.
  apply (for_each_ok (λ _, True)); [done| |done..].
  intros d fs2 Hin HI2 _. unfold join. rewrite <-app_assoc. apply IH; [|done].
  apply (source_path_proper _ fs); [done|]. rewrite app_assoc.
  apply Hdirs in Hin. rewrite <-app_assoc. by rewrite Hin.
Qed.

(** The invariant holds when the run ends, normally or not. *)
Lemma run_ok fs : Inv fs → ok fs (run o copies fs).
Proof.
  intros HI. unfold run. apply seq_ok.
  { by apply (call_ok MkTarget). }
  intros fs1 _ HI1 HR1.
  apply (for_each_ok (λ _, True)); [done| |done..].
  intros i fs2 [_ Hi]%elem_of_seq HI2 _. unfold for_os_walk.
  rewrite <-(app_nil_r SOURCE_DIR). by apply walk_loop_ok.
Qed.

Lemma Done_ok (c : filesys → outcome) fs fs' :
  ok fs (c fs) → c fs = Done fs' → Inv fs' ∧ R fs fs'.
Proof. intros H E. by rewrite E in H. Qed.

(** The body of the loop makes the call owed to each of its files. *)
Lemma body_visits i X dirs files fs fs' :
  i < copies → Inv fs → fs !! (SOURCE_DIR ++ X) = Some Dir →
  Forall (λ f, is_Some (fs !! (SOURCE_DIR ++ X ++ [f]))) files →
  walk_body i (SOURCE_DIR ++ X) dirs files fs = Done fs' →
  (∃ fs2, exec (Mkdir (SOURCE_DIR ++ X)) fs = Some fs2 ∧ Inv fs2 ∧ R fs2 fs') ∧
  (∀ file, file ∈ files → ∃ fs1 fs2,
     R fs fs1 ∧ Inv fs1 ∧
     exec (Copy (SOURCE_DIR ++ X) file i) fs1 = Some fs2 ∧ Inv fs2 ∧ R fs2 fs').
Proof.
  intros Hi HI Hd Hf. rewrite walk_body_ops. unfold run_ops, body_ops.
  rewrite for_each_cons. intros (fs1 & E1%call_Done & E)%and_then_Done.
  assert (legit_at copies fs (Mkdir (SOURCE_DIR ++ X))) as Hmk by by exists X.
  destruct (exec_step _ _ _ HI Hmk E1) as [HI1 HR1].
  rewrite for_each_fmap in E.
  set (P := λ fs : filesys, fs !! (SOURCE_DIR ++ X) = Some Dir ∧
    Forall (λ f, is_Some (fs !! (SOURCE_DIR ++ X ++ [f]))) files).
  assert (HPR : ∀ fs2 fs3, P fs2 → R fs2 fs3 → P fs3).
  { intros fs2 fs3 [H2 H3] HR. unfold P. rewrite (R_source _ _ _ HR).
    split; [done|]. eapply Forall_impl; [done|].
    intros f Hfs. by rewrite (R_source _ _ _ HR). }
  assert (HP1 : P fs1) by by apply (HPR fs).
  assert (Hcall : ∀ f fs2, f ∈ files → Inv fs2 → P fs2 →
    legit_at copies fs2 (Copy (SOURCE_DIR ++ X) f i)).
  { intros f fs2 Hin _ [H2 H3]. exists X. split_and!; [done..| |done].
    rewrite <-app_assoc. by eapply Forall_forall in H3. }
  assert (Hloop : ∀ l fsa fsb, l ⊆ files → Inv fsa → P fsa →
    for_each l (λ x, call (exec (Copy (SOURCE_DIR ++ X) x i))) fsa = Done fsb →
    Inv fsb ∧ R fsa fsb).
  { intros l fsa fsb Hl HIa HPa. apply Done_ok.
    apply (for_each_ok P); [done| |done..].
    intros f fs2 Hin HI2 HP2. apply call_ok; [done|]. apply Hcall; auto. }
  split.
  - exists fs1. split_and!; [done..|]. by apply (Hloop files fs1 fs').
  - intros file (l1 & l2 & Hl)%list_elem_of_split. rewrite Hl in E.
    apply for_each_Done_split in E as (fsa & fsb & Ea & Eb%call_Done & Ec).
    assert (l1 ⊆ files ∧ l2 ⊆ files ∧ file ∈ files) as (Hl1 & Hl2 & Hfile).
    { rewrite Hl. split_and!.
      - intros x ?. apply elem_of_app. by left.
      - intros x ?. apply elem_of_app. right. by right.
      - apply elem_of_app. right. by left. }
    destruct (Hloop l1 fs1 fsa Hl1 HI1 HP1 Ea) as [HIa HRa].
    assert (HPa : P fsa) by by apply (HPR fs1).
    destruct (exec_step _ _ _ HIa (Hcall _ _ Hfile HIa HPa) Eb) as [HIb HRb].
    assert (HPb : P fsb) by by apply (HPR fsa).
    destruct (Hloop l2 fsb fs' Hl2 HIb HPb Ec) as [HIc HRc].
    exists fsa, fsb. split_and!; [by etrans|done..].
Qed.

(** Every directory below the top of a walk has the body run for it. *)
Lemma walk_loop_visits i fuel X Y fs fs' :
  i < copies → Forall proper_name X → Inv fs →
  walk_loop o fuel (walk_body i) (SOURCE_DIR ++ X) fs = Done fs' →
  fs !! (SOURCE_DIR ++ X ++ Y) = Some Dir → length Y < fuel →
  ∃ fs1 fs2 dirs files,
    R fs fs1 ∧ Inv fs1 ∧
    scandir o fs1 (SOURCE_DIR ++ X ++ Y) = Some (dirs, files) ∧
    walk_body i (SOURCE_DIR ++ X ++ Y) dirs files fs1 = Done fs2 ∧
    Inv fs2 ∧ R fs2 fs'.
Proof.
  intros Hi. revert X Y fs fs'.
  induction fuel as [|fuel IH]; intros X Y fs fs' HX HI E HY Hlen; [lia|].
  pose proof (Inv_wf _ HI) as Hwf.
  assert (fs !! (SOURCE_DIR ++ X) = Some Dir) as Hd.
  { destruct Y as [|d Y]; [by rewrite app_nil_r in HY|].
    rewrite app_assoc in HY. eapply wf_prefix_dir; [done|by rewrite HY|done|].
    apply SOURCE_DIR_nonempty. }
  simpl in E.
  destruct (scandir o fs (SOURCE_DIR ++ X)) as [[dirs files]|] eqn:Es.
  2:{ destruct (scandir_is_Some o fs (SOURCE_DIR ++ X)) as [? Hs]; [| |done|].
      - apply Forall_app. split; [apply SOURCE_DIR_proper|done].
      - apply SOURCE_DIR_nonempty.
      - congruence. }
  pose proof Es as (_ & Hdirs & Hfiles & _ & _)%source_dir_listing; [|done..].
  apply and_then_Done in E as (fs1 & E1 & E2).
  assert (Forall (λ f, is_Some (fs !! (SOURCE_DIR ++ X ++ [f]))) files) as Hfs.
  { apply Forall_forall. intros f (r & data & ->)%Hfiles. done. }
  destruct (Done_ok _ _ _ (body_ok i X dirs files fs Hi HI Hd Hfs) E1) as [HI1 HR1].
  assert (Hloop : ∀ l fsa fsb, l ⊆ dirs → Inv fsa →
    for_each l (λ d, walk_loop o fuel (walk_body i) (join (SOURCE_DIR ++ X) [d]))
      fsa = Done fsb → Inv fsb ∧ R fsa fsb).
  { intros l fsa fsb Hl HIa. apply Done_ok.
    apply (for_each_ok (λ _, True)); [done| |done..].
    intros d fs2 Hin HI2 _. unfold join. rewrite <-app_assoc.
    apply walk_loop_ok; [done| |done].
    apply (source_path_proper _ fs); [done|].
    apply Hl, Hdirs in Hin. by rewrite Hin. }
  destruct Y as [|d Y].
  - exists fs, fs1, dirs, files. rewrite app_nil_r.
    split_and!; [done..|]. by apply (Hloop dirs fs1 fs').
  - assert (d ∈ dirs) as Hin.
    { apply Hdirs. destruct Y as [|d' Y'] using rev_ind; [done|].
      apply (wf_prefix_dir fs _ (Y' ++ [d'])); [done| |by destruct Y'|].
      + rewrite <-!app_assoc. simpl. by rewrite HY.
      + rewrite app_assoc. by destruct X. }
    pose proof Hin as (l1 & l2 & Hl)%list_elem_of_split. rewrite Hl in E2.
    apply for_each_Done_split in E2 as (fsa & fsb & Ea & Eb & Ec).
    assert (l1 ⊆ dirs ∧ l2 ⊆ dirs) as [Hl1 Hl2].
    { rewrite Hl. split.
      - intros x ?. apply elem_of_app. by left.
      - intros x ?. apply elem_of_app. right. by right. }
    destruct (Hloop l1 fs1 fsa Hl1 HI1 Ea) as [HIa HRa].
    unfold join in Eb. rewrite <-app_assoc in Eb.
    assert (Forall proper_name (X ++ [d])) as HXd.
    { apply (source_path_proper _ fs); [done|].
      apply Hdirs in Hin. by rewrite Hin. }
    assert (R fs fsa) as HRfa by by etrans.
    destruct (IH (X ++ [d]) Y fsa fsb HXd HIa Eb) as
      (fs2 & fs3 & dirs' & files' & HR2 & HI2 & Es' & Eb' & HI3 & HR3).
    { rewrite <-app_assoc. simpl. by rewrite (R_source _ _ _ HRfa). }
    { simpl in Hlen. lia. }
    assert (Inv fsb ∧ R fsa fsb) as [HIb HRb].
    { apply (Done_ok (walk_loop o fuel (walk_body i) (SOURCE_DIR ++ X ++ [d]))).
      - apply walk_loop_ok; done.
      - done. }
    destruct (Hloop l2 fsb fs' Hl2 HIb Ec) as [HIc HRc].
    rewrite <-app_assoc in Es', Eb'. simpl in Es', Eb'.
    exists fs2, fs3, dirs', files'.
    split_and!; [by etrans|done..|by etrans].
Qed.

Lemma depth_ge fs k : is_Some (fs !! k) → length k ≤ depth fs.
Proof.
  intros Hk. unfold depth. apply max_list_elem_of_le.
  apply list_elem_of_fmap. exists k. split; [done|].
  by apply elem_of_elements, elem_of_dom.
Qed.

Lemma passes_ok (l : list nat) fs :
  (∀ i, i ∈ l → i < copies) → Inv fs →
  ok fs (for_each l (λ i, for_os_walk o (walk_body i) SOURCE_DIR) fs).
Proof.
  intros Hl HI. apply (for_each_ok (λ _, True)); [done| |done..].
  intros i fs2 Hi HI2 _. unfold for_os_walk.
  rewrite <-(app_nil_r SOURCE_DIR). apply walk_loop_ok; [by apply Hl|done..].
Qed.

(** In every pass the body of the loop runs for every source directory. *)
Lemma run_visits i X fs fs' :
  i < copies → Inv fs → run o copies fs = Done fs' →
  fs !! (SOURCE_DIR ++ X) = Some Dir →
  ∃ fs1 fs2 dirs files,
    R fs fs1 ∧ Inv fs1 ∧
    scandir o fs1 (SOURCE_DIR ++ X) = Some (dirs, files) ∧
    walk_body i (SOURCE_DIR ++ X) dirs files fs1 = Done fs2 ∧
    Inv fs2 ∧ R fs2 fs'.
Proof.
  intros Hi HI E HX. unfold run in E.
  apply and_then_Done in E as (fs0 & E0%call_Done & E).
  destruct (exec_step MkTarget _ _ HI I E0) as [HI0 HR0].
  assert (i ∈ seq 0 copies) as (l1 & l2 & Hl)%list_elem_of_split.
  { apply elem_of_seq. lia. }
  assert (∀ j, j ∈ l1 ++ i :: l2 → j < copies) as Hlt.
  { intros j Hj. rewrite <-Hl in Hj. apply elem_of_seq in Hj. lia. }
  rewrite Hl in E.
  apply for_each_Done_split in E as (fsa & fsb & Ea & Eb & Ec).
  destruct (Done_ok _ _ _ (passes_ok l1 fs0
    ltac:(intros j Hj; apply Hlt, elem_of_app; by left) HI0) Ea) as [HIa HRa].
  assert (R fs fsa) as HRfa by by etrans.
  unfold for_os_walk in Eb. rewrite <-(app_nil_r SOURCE_DIR) in Eb.
  assert (Inv fsb ∧ R fsa fsb) as [HIb HRb].
  { apply (Done_ok (walk_loop o (S (depth fsa)) (walk_body i) (SOURCE_DIR ++ []))).
    - by apply walk_loop_ok.
    - done. }
  destruct (Done_ok _ _ _ (passes_ok l2 fsb
    ltac:(intros j Hj; apply Hlt, elem_of_app; right; by right) HIb) Ec)
    as [HIc HRc].
  destruct (walk_loop_visits i _ [] X fsa fsb Hi ltac:(done) HIa Eb) as
    (fs1 & fs2 & dirs & files & HR1 & HI1 & Es & Eb' & HI2 & HR2).
  { simpl. by rewrite (R_source _ _ _ HRfa). }
  { assert (length (SOURCE_DIR ++ X) ≤ depth fsa) as Hlen.
    { apply depth_ge. by rewrite (R_source _ _ _ HRfa), HX. }
    rewrite length_app in Hlen. lia. }
  exists fs1, fs2, dirs, files.
  split_and!; [by etrans|done..|]. etrans; [done|]. by etrans.
Qed.

(** The directory of every source directory is made in every pass. *)
Lemma run_makes_dir i X fs fs' :
  i < copies → Inv fs → run o copies fs = Done fs' →
  fs !! (SOURCE_DIR ++ X) = Some Dir →
  ∃ fs1 fs2, R fs fs1 ∧ Inv fs1 ∧
    exec (Mkdir (SOURCE_DIR ++ X)) fs1 = Some fs2 ∧ Inv fs2 ∧ R fs2 fs'.
Proof.
  intros Hi HI E HX.
  destruct (run_visits i X fs fs' Hi HI E HX) as
    (fs1 & fs2 & dirs & files & HR1 & HI1 & Es & Eb & HI2 & HR2).
  pose proof (Inv_wf _ HI1) as Hwf1.
  apply source_dir_listing in Es as (Hd & _ & Hfiles & _ & _);
    [|done|by apply (source_path_proper X fs); [apply Inv_wf|rewrite HX]].
  apply body_visits in Eb as [(fs3 & E3 & HI3 & HR3) _]; [|done..|].
  - exists fs1, fs3. split_and!; [done..|by etrans].
  - apply Forall_forall. intros f (r & data & ->)%Hfiles. done.
Qed.

(** Every source file is copied in every pass. *)
Lemma run_copies_file i X file r data fs fs' :
  i < copies → Inv fs → run o copies fs = Done fs' →
  fs !! (SOURCE_DIR ++ X ++ [file]) = Some (File r data) →
  ∃ fs1 fs2, R fs fs1 ∧ Inv fs1 ∧
    exec (Copy (SOURCE_DIR ++ X) file i) fs1 = Some fs2 ∧ Inv fs2 ∧ R fs2 fs'.
Proof.
  intros Hi HI E Hfile. pose proof (Inv_wf _ HI) as Hwf.
  assert (fs !! (SOURCE_DIR ++ X) = Some Dir) as HX.
  { rewrite app_assoc in Hfile.
    eapply wf_prefix_dir; [done|by rewrite Hfile|done|apply SOURCE_DIR_nonempty]. }
  destruct (run_visits i X fs fs' Hi HI E HX) as
    (fs1 & fs2 & dirs & files & HR1 & HI1 & Es & Eb & HI2 & HR2).
  pose proof (Inv_wf _ HI1) as Hwf1.
  apply source_dir_listing in Es as (Hd & _ & Hfiles & _ & _);
    [|done|by apply (source_path_proper X fs); [|rewrite HX]].
  apply body_visits in Eb as [_ Hcopies]; [|done..|].
  - destruct (Hcopies file) as (fs3 & fs4 & HR3 & HI3 & E3 & HI4 & HR4).
    { apply Hfiles. exists r, data. by rewrite (R_source _ _ _ HR1). }
    exists fs3, fs4. split_and!; [by etrans|done..|by etrans].
  - apply Forall_forall. intros f (r' & data' & ->)%Hfiles. done.
Qed.

(** The target root is made first. *)
Lemma run_makes_target fs fs' :
  Inv fs → run o copies fs = Done fs' →
  ∃ fs2, exec MkTarget fs = Some fs2 ∧ Inv fs2 ∧ R fs2 fs'.
Proof.
  intros HI E. unfold run in E.
  apply and_then_Done in E as (fs0 & E0%call_Done & E).
  destruct (exec_step MkTarget _ _ HI I E0) as [HI0 HR0].
  exists fs0. split_and!; [done..|].
  apply (Done_ok _ _ _ (passes_ok (seq 0 copies) fs0
    ltac:(intros j Hj%elem_of_seq; lia) HI0) E).
Qed.

End run_invariant.

(** ** What every call guarantees *)

Section evolution.
Implicit Types (fs : filesys) (q X : path).

Global Instance evolves_preorder : PreOrder evolves.
Proof.
  split.
  - intros fs. split_and!; eauto.
  - intros fs1 fs2 fs3 (Hs1 & Hd1 & Hf1 & Hn1) (Hs2 & Hd2 & Hf2 & Hn2).
    split_and!.
    + intros x. by rewrite Hs2.
    + eauto.
    + intros q b d (b' & d' & H)%Hf1. eauto.
    + intros q [H|[H2 [Hq Hm]]]%Hn2; [by apply Hn1|]. right.
      split.
      * destruct (fs1 !! q) as [[b d|]|] eqn:E; [|by rewrite (Hd1 _ E) in H2|done].
        destruct (Hf1 _ _ _ E) as (? & ? & ?). congruence.
      * split; [done|]. destruct Hm as [?|(X & -> & HX)]; [by left|].
        right. exists X. by rewrite <-Hs1.
Qed.

Lemma prefix_app_cases (q a b : path) :
  q `prefix_of` a ++ b →
  q `prefix_of` a ∨ ∃ b', q = a ++ b' ∧ b' `prefix_of` b.
Proof.
  revert q. induction a as [|c a IH]; intros q Hq; simpl in *.
  - right. by exists q.
  - destruct q as [|c' q]; [left; apply prefix_nil|].
    apply prefix_cons_inv_1 in Hq as Hc. subst c'.
    apply prefix_cons_inv_2 in Hq.
    destruct (IH _ Hq) as [?|(b' & -> & ?)].
    + left. by apply prefix_cons.
    + right. by exists b'.
Qed.

Lemma not_source_prefix_target x X : ¬ SOURCE_DIR ++ x `prefix_of` TARGET_DIR ++ X.
Proof. intros [k Hk]. rewrite <-app_assoc in Hk. symmetry in Hk. by apply roots_apart in Hk. Qed.

Lemma makedirs_target_evolves fs fs' X :
  wf fs → Forall proper_name X →
  (X = [] ∨ fs !! (SOURCE_DIR ++ X) = Some Dir) →
  makedirs_from [] (TARGET_DIR ++ X) fs = Some fs' →
  evolves fs fs' ∧
  (∀ q, fs' !! q = fs !! q ∨ (fs !! q = None ∧ fs' !! q = Some Dir)) ∧
  fs' !! (TARGET_DIR ++ X) = Some Dir.
Proof.
  intros Hwf HX Hsrc H.
  assert (∀ q, fs' !! q = fs !! q ∨
    (fs !! q = None ∧ fs' !! q = Some Dir ∧ q ≠ [] ∧ q `prefix_of` TARGET_DIR ++ X))
    as Hl.
  { intros q. destruct (makedirs_from_lookup _ _ _ _ q H) as [?|(?&?&r&?&?&->)]; auto. }
  split_and!.
  - split_and!.
    + intros x. destruct (Hl (SOURCE_DIR ++ x)) as [?|(_&_&_&Hp)]; [done|].
      by apply not_source_prefix_target in Hp.
    + intros q Hq. by eapply makedirs_from_preserves.
    + intros q b d Hq. exists b, d. by eapply makedirs_from_preserves.
    + intros q Hq. destruct (Hl q) as [Heq|(Hn & _ & Hne & Hp)].
      * left. congruence.
      * right. split; [done|]. split; [done|].
        apply prefix_app_cases in Hp as [?|(X' & -> & HX')]; [by left|].
        destruct Hsrc as [->|Hd].
        { apply prefix_nil_inv in HX'. subst. left. by rewrite app_nil_r. }
        right. exists X'. split; [done|].
        destruct HX' as [k ->]. destruct k as [|c k]; [by rewrite app_nil_r in Hd|].
        rewrite app_assoc in Hd. eapply wf_prefix_dir; [done|by rewrite Hd|done|].
        apply SOURCE_DIR_nonempty.
  - intros q. destruct (Hl q) as [?|(?&?&_)]; auto.
  - apply (makedirs_from_dirs [] _ _ _ _ H); [apply TARGET_DIR_nonempty|done].
Qed.

Lemma wf_insert_file fs p c b d :
  wf fs → (p = [] ∨ fs !! p = Some Dir) → proper_name c →
  fs !! (p ++ [c]) ≠ Some Dir → wf (<[p ++ [c] := File b d]> fs).
Proof.
  intros Hwf Hp Hc Hnd q c' Hq.
  destruct (decide (q ++ [c'] = p ++ [c])) as [Heq|Hne].
  - apply app_inj_tail in Heq as [-> ->]. split; [|done].
    destruct Hp as [->|Hp]; [by left|]. right.
    rewrite lookup_insert_ne; [done|].
    intros Heq%(f_equal length). rewrite length_app in Heq. simpl in Heq. lia.
  - rewrite lookup_insert_ne in Hq by done.
    destruct (Hwf q c' Hq) as [[->|Hd] Hc']; [by auto|]. split; [|done].
    right. rewrite lookup_insert_ne; [done|]. intros <-. congruence.
Qed.

Lemma source_file_proper fs X file :
  wf fs → is_Some (fs !! (SOURCE_DIR ++ X ++ [file])) →
  Forall proper_name X ∧ proper_name file.
Proof.
  intros Hwf Hf. pose proof (wf_proper _ _ Hwf Hf) as Hp.
  apply Forall_app in Hp as [_ Hp]. apply Forall_app in Hp as [HX Hfile].
  by rewrite Forall_singleton in Hfile.
Qed.

(** A successful copy writes one regular file where it lands. *)
Lemma copy_lands fs fs' X file i :
  wf fs → fs !! (SOURCE_DIR ++ X) = Some Dir →
  is_Some (fs !! (SOURCE_DIR ++ X ++ [file])) →
  exec (Copy (SOURCE_DIR ++ X) file i) fs = Some fs' →
  ∃ data, fs !! (SOURCE_DIR ++ X ++ [file]) = Some (File true data) ∧
    fs !! landing fs X file i ≠ Some Dir ∧
    fs !! parent (landing fs X file i) = Some Dir ∧
    fs' = <[landing fs X file i := File true data]> fs.
Proof.
  intros Hwf Hd Hf. destruct (source_file_proper _ _ _ Hwf Hf) as [HX Hfile].
  rewrite exec_Copy by done.
  destruct (fs !! (SOURCE_DIR ++ X ++ [file])) as [[[] data|]|]; try done.
  simpl. repeat case_bool_decide; try done. intros [= <-]. by exists data.
Qed.

Lemma copy_evolves fs fs' X file i :
  wf fs → fs !! (SOURCE_DIR ++ X) = Some Dir →
  is_Some (fs !! (SOURCE_DIR ++ X ++ [file])) →
  exec (Copy (SOURCE_DIR ++ X) file i) fs = Some fs' →
  wf fs' ∧ evolves fs fs'.
Proof.
  intros Hwf Hd Hf H. destruct (source_file_proper _ _ _ Hwf Hf) as [HX Hfile].
  destruct (copy_lands _ _ _ _ _ Hwf Hd Hf H) as (data & Hsrc & Hnd & Hpar & ->).
  pose proof (landing_proper fs X file i HX Hfile) as Hlp.
  destruct (landing_target fs X file i) as (y & Hy & Hyne).
  split.
  - destruct (landing fs X file i) as [|c l] eqn:E using rev_ind.
    { symmetry in Hy. by apply TARGET_DIR_nonempty in Hy. }
    clear IHl. unfold parent in Hpar. rewrite removelast_last in Hpar.
    apply wf_insert_file; [done|by right| |done].
    apply Forall_app in Hlp as [_ Hc]. by rewrite Forall_singleton in Hc.
  - split_and!.
    + intros x. rewrite lookup_insert_ne; [done|]. rewrite Hy.
      intros Heq. symmetry in Heq. by apply roots_apart in Heq.
    + intros q Hq. rewrite lookup_insert_ne; [done|]. congruence.
    + intros q b d Hq. destruct (decide (landing fs X file i = q)) as [<-|Hne].
      * rewrite lookup_insert_eq. eauto.
      * rewrite lookup_insert_ne by done. eauto.
    + intros q Hq. left. destruct (decide (landing fs X file i = q)) as [<-|Hne].
      * by rewrite lookup_insert_eq in Hq.
      * by rewrite lookup_insert_ne in Hq.
Qed.

(** Every call keeps the file system well formed and moves it along
    [evolves]. *)
Lemma exec_evolves copies a fs fs' :
  wf fs → legit_at copies fs a → exec a fs = Some fs' → wf fs' ∧ evolves fs fs'.
Proof.
  intros Hwf Ha H. destruct a as [|root|root file i].
  - split; [by eapply makedirs_wf|].
    rewrite exec_MkTarget, <-(app_nil_r TARGET_DIR) in H.
    by apply makedirs_target_evolves in H as [? _]; [|done|done|left].
  - destruct Ha as (X & -> & Hd). split; [by eapply makedirs_wf|].
    assert (Forall proper_name X) as HX.
    { apply (source_path_proper X fs); [done|by rewrite Hd]. }
    rewrite exec_Mkdir in H by done.
    by apply makedirs_target_evolves in H as [? _]; [|done|done|right].
  - destruct Ha as (X & -> & Hd & Hf & _).
    rewrite <-app_assoc in Hf. by eapply copy_evolves.
Qed.

End evolution.

(** ** Observations *)

Section observations.
Implicit Types (fs : filesys) (root p : path).

Lemma elem_of_files_under fs root p :
  p ∈ files_under fs root ↔
  p ≠ [] ∧ ∃ b d, fs !! (root ++ p) = Some (File b d).
Proof.
  unfold files_under. rewrite elem_of_difference, elem_of_set_omap.
  rewrite not_elem_of_singleton. split.
  - intros [(k & Hk & ->%relative_to_Some) Hne]. split; [done|].
    apply elem_of_dom in Hk as [n Hn].
    apply map_lookup_filter_Some in Hn as [Hn Hf]. simpl in Hf.
    destruct n as [b d|]; [eauto|done].
  - intros [Hne (b & d & H)]. split; [|done]. exists (root ++ p).
    split; [|by apply relative_to_Some]. apply elem_of_dom.
    exists (File b d). by apply map_lookup_filter_Some.
Qed.

Lemma elem_of_dirs_under fs root p :
  p ∈ dirs_under fs root ↔ p ≠ [] ∧ fs !! (root ++ p) = Some Dir.
Proof.
  unfold dirs_under. rewrite elem_of_difference, elem_of_set_omap.
  rewrite not_elem_of_singleton. split.
  - intros [(k & Hk & ->%relative_to_Some) Hne]. split; [done|].
    apply elem_of_dom in Hk as [n Hn].
    apply map_lookup_filter_Some in Hn as [Hn Hf]. simpl in Hf.
    by destruct n.
  - intros [Hne H]. split; [|done]. exists (root ++ p).
    split; [|by apply relative_to_Some]. apply elem_of_dom.
    exists Dir. by apply map_lookup_filter_Some.
Qed.

Lemma content_Some fs p data :
  content fs p = Some data ↔ ∃ b, fs !! p = Some (File b data).
Proof.
  unfold content. destruct (fs !! p) as [[b d|]|]; split;
    try done; try (by intros [? ?]).
  - intros [= ->]. eauto.
  - by intros [? [= _ ->]].
Qed.

End observations.

(** ** Every run *)

Section every_run.
Context (o : listing_order) (copies : nat).

(** Well-formedness is kept and the file system only evolves, whether
    the run completes or raises. *)
Lemma run_evolves fs :
  wf fs → wf (final_fs (run o copies fs)) ∧ evolves fs (final_fs (run o copies fs)).
Proof.
  apply (run_ok o copies wf evolves); [done| |].
  - intros fs1 fs2 x [H _]. apply H.
  - intros a fs1 fs2. apply exec_evolves.
Qed.

End every_run.

(** ** Runs in which no directory stands in the way of a copy *)

Section clean_run.
Context (o : listing_order) (copies : nat) (fs0 : filesys).
Hypothesis wf0 : wf fs0.
Hypothesis no_clash0 : no_clash copies fs0.

Let Inv (fs : filesys) : Prop := wf fs ∧ evolves fs0 fs.
Let R (fs fs' : filesys) : Prop := evolves fs fs' ∧ copies_only copies fs0 fs fs'.

Local Instance clean_preorder : PreOrder R.
Proof.
  split.
  - intros fs. split; [done|]. split; [by left|done].
  - intros fs1 fs2 fs3 [He1 [Hc1 Hg1]] [He2 [Hc2 Hg2]].
    split; [by etrans|]. split; [|by eauto].
    intros q. destruct (Hc2 q) as [Heq|[[Hn Hd]|(data & Hg & Hf)]].
    + rewrite Heq. destruct (Hc1 q) as [?|[?|?]]; auto.
    + destruct (Hc1 q) as [Heq|[[Hn1 Hd1]|(data & Hg & Hf)]].
      * right. left. by rewrite <-Heq.
      * congruence.
      * congruence.
    + right. right. eauto.
Qed.

Lemma target_not_prefix y : y ≠ [] → ¬ TARGET_DIR ++ y `prefix_of` TARGET_DIR.
Proof.
  intros Hy [k Hk]. apply (f_equal length) in Hk.
  rewrite !length_app in Hk. destruct y; [done|]. simpl in Hk. lia.
Qed.

(** No copy is diverted into a directory. *)
Lemma clean_landing fs X file i r data :
  Inv fs → i < copies →
  fs0 !! (SOURCE_DIR ++ X ++ [file]) = Some (File r data) →
  landing fs X file i = TARGET_DIR ++ X ++ [new_filename file i].
Proof.
  intros [_ (_ & _ & _ & Hn)] Hi Hf. unfold landing.
  case_bool_decide as Hd; [exfalso|done].
  destruct (no_clash0 X file i r data Hi Hf) as [Ht Hs].
  destruct (Hn _ Hd) as [?|[_ [_ [Hp|(X' & Heq & HX')]]]]; [done| |].
  - by apply target_not_prefix in Hp; [|destruct X].
  - apply app_inv_head in Heq. by subst X'.
Qed.

Lemma generated_unique q data data' :
  generated copies fs0 q data → generated copies fs0 q data' → data = data'.
Proof.
  intros (X & f & i & r & _ & Hf & ->) (X' & f' & i' & r' & _ & Hf' & Heq).
  apply app_inv_head in Heq.
  apply app_inj_tail in Heq as [<- [<- _]%new_filename_inj]. congruence.
Qed.

Lemma clean_copy fs fs' X file i :
  Inv fs → legit_at copies fs (Copy (SOURCE_DIR ++ X) file i) →
  exec (Copy (SOURCE_DIR ++ X) file i) fs = Some fs' →
  ∃ data, generated copies fs0 (TARGET_DIR ++ X ++ [new_filename file i]) data ∧
    fs' = <[TARGET_DIR ++ X ++ [new_filename file i] := File true data]> fs.
Proof.
  intros HI (X' & HX' & Hd & Hf & Hi) H. apply app_inv_head in HX'. subst X'.
  rewrite <-app_assoc in Hf. destruct (HI) as [Hwf He].
  destruct (copy_lands _ _ _ _ _ Hwf Hd Hf H) as (data & Hsrc & _ & _ & ->).
  destruct He as [Hs _]. rewrite Hs in Hsrc.
  rewrite (clean_landing fs X file i true data) by done.
  exists data. split; [|done]. by exists X, file, i, true.
Qed.

Lemma clean_step a fs fs' :
  Inv fs → legit_at copies fs a → exec a fs = Some fs' → Inv fs' ∧ R fs fs'.
Proof.
  intros HI Ha H. pose proof HI as [Hwf He0].
  destruct (exec_evolves copies a fs fs' Hwf Ha H) as [Hwf' He].
  split; [split; [done|by etrans]|]. split; [done|].
  assert (∀ X, (X = [] ∨ fs !! (SOURCE_DIR ++ X) = Some Dir) →
    Forall proper_name X →
    makedirs_from [] (TARGET_DIR ++ X) fs = Some fs' →
    copies_only copies fs0 fs fs') as Hmk.
  { intros X HX HpX Hm.
    apply makedirs_target_evolves in Hm as (_ & Hl & _); [|done..].
    split.
    - intros q. destruct (Hl q) as [?|?]; auto.
    - intros q data _ Hq. destruct (Hl q) as [->|[? _]]; congruence. }
  destruct a as [|root|root file i].
  - rewrite exec_MkTarget, <-(app_nil_r TARGET_DIR) in H.
    apply (Hmk []); [by left|done..].
  - destruct Ha as (X & -> & Hd).
    assert (Forall proper_name X) as HX.
    { apply (source_path_proper X fs); [done|by rewrite Hd]. }
    rewrite exec_Mkdir in H by done. apply (Hmk X); [by right|done..].
  - pose proof Ha as (X & -> & _).
    destruct (clean_copy _ _ _ _ _ HI Ha H) as (data & Hg & ->).
    split.
    + intros q.
      destruct (decide (TARGET_DIR ++ X ++ [new_filename file i] = q)) as [<-|Hne].
      * right. right. exists data. by rewrite lookup_insert_eq.
      * left. by rewrite lookup_insert_ne.
    + intros q data' Hg' Hq.
      destruct (decide (TARGET_DIR ++ X ++ [new_filename file i] = q)) as [<-|Hne].
      * rewrite lookup_insert_eq. by rewrite (generated_unique _ _ _ Hg Hg').
      * by rewrite lookup_insert_ne.
Qed.

(** The changes of the run, completed or not. *)
Lemma clean_run_changes :
  wf (final_fs (run o copies fs0)) ∧
  evolves fs0 (final_fs (run o copies fs0)) ∧
  copies_only copies fs0 fs0 (final_fs (run o copies fs0)).
Proof.
  destruct (run_ok o copies Inv R) with (fs := fs0) as [[? ?] [? ?]]; auto.
  - by intros fs [? _].
  - intros fs fs' x [[Hs _] _]. apply Hs.
  - apply clean_step.
  - by split.
Qed.

(** Every copy is where it is expected when the run completes. *)
Lemma clean_run_copy fs' X file i r data :
  run o copies fs0 = Done fs' → i < copies →
  fs0 !! (SOURCE_DIR ++ X ++ [file]) = Some (File r data) →
  fs' !! (TARGET_DIR ++ X ++ [new_filename file i]) = Some (File true data).
Proof.
  intros E Hi Hf.
  destruct (run_copies_file o copies Inv R) with (i := i) (X := X) (file := file)
    (r := r) (data := data) (fs := fs0) (fs' := fs')
    as (fs1 & fs2 & HR1 & HI1 & E1 & HI2 & [_ [_ Hg2]]); auto.
  - by intros fs [? _].
  - intros fs fs'' x [[Hs _] _]. apply Hs.
  - apply clean_step.
  - by split.
  - assert (legit_at copies fs1 (Copy (SOURCE_DIR ++ X) file i)) as Hl.
    { destruct HI1 as [Hwf1 [Hs1 _]]. exists X.
      assert (fs1 !! (SOURCE_DIR ++ X ++ [file]) = Some (File r data)) as Hf1
        by by rewrite Hs1.
      split_and!; [done| |by rewrite <-app_assoc, Hf1|done].
      rewrite app_assoc in Hf1.
      eapply wf_prefix_dir; [done|by rewrite Hf1|done|apply SOURCE_DIR_nonempty]. }
    destruct (clean_copy _ _ _ _ _ HI1 Hl E1) as (data' & Hg & ->).
    assert (generated copies fs0 (TARGET_DIR ++ X ++ [new_filename file i]) data)
      as Hg' by by exists X, file, i, r.
    apply Hg2; [done|].
    by rewrite lookup_insert_eq, (generated_unique _ _ _ Hg Hg').
Qed.

End clean_run.

(** ** Checking concrete file systems *)

Section checks.

Lemma wf_check_correct fs : wf_check fs = true → wf fs.
Proof.
  unfold wf_check. rewrite forallb_forall. intros H p c [n Hn].
  specialize (H (p ++ [c], n)). cbn beta iota delta [fst snd] in H.
  rewrite parent_snoc, basename_snoc in H.
  destruct (p ++ [c]) eqn:E; [by destruct p|]. rewrite <-E in *.
  apply andb_prop in H as [H1 H2].
  - apply orb_prop in H1. apply bool_decide_eq_true in H2.
    split; [|done].
    destruct H1 as [H1|H1]; apply bool_decide_eq_true in H1; auto.
  - apply list_elem_of_In, elem_of_map_to_list. done.
Qed.

Lemma no_clash_check_correct copies fs :
  no_clash_check copies fs = true → no_clash copies fs.
Proof.
  unfold no_clash_check. rewrite forallb_forall.
  intros H X file i r data Hi Hf.
  specialize (H (SOURCE_DIR ++ X ++ [file], File r data)).
  cbn beta iota delta [fst snd] in H.
  rewrite relative_to_app in H.
  destruct (X ++ [file]) eqn:E; [by destruct X|]. rewrite <-E in *.
  rewrite parent_snoc, basename_snoc in H.
  assert (In (SOURCE_DIR ++ X ++ [file], File r data) (map_to_list fs)) as Hin.
  { by apply list_elem_of_In, elem_of_map_to_list. }
  specialize (H Hin). rewrite forallb_forall in H.
  assert (In i (seq 0 copies)) as Hin' by (apply list_elem_of_In, elem_of_seq; lia).
  specialize (H i Hin'). cbv beta zeta in H. apply andb_prop in H as [H1 H2].
  apply negb_true_iff, bool_decide_eq_false in H1.
  apply negb_true_iff, bool_decide_eq_false in H2. done.
Qed.

End checks.

Lemma succeeded_Done r : succeeded r = true → r = Done (final_fs r).
Proof. by destruct r. Qed.

Lemma not_succeeded_Raised r : succeeded r = false → r = Raised (final_fs r).
Proof. by destruct r. Qed.

(** * What the script guarantees *)

(** ** Generated names *)



(** C5. A file name without extension gets the suffix [_copy<i>] and
    nothing else: no dot and no extension are added. *)
Theorem no_extension_name file i :
  (splitext file).2 = "" →
  new_filename file i = file +:+ "_copy" +:+ pretty i ∧
  (splitext (new_filename file i)).2 = "".
Proof.
  unfold splitext at 1. intros He.
  pose proof (splitext_new_filename file i) as Hs.
  pose proof (new_filename_chars file i) as Hc.
  destruct (splitext_chars (chars file)) as [n e] eqn:E. simpl in *.
  assert (e = []) as ->.
  { apply (f_equal chars) in He. by rewrite chars_str in He. }
  apply splitext_chars_app in E. rewrite app_nil_r in E, Hc. subst n.
  split.
  - apply chars_inj. by rewrite Hc, !chars_append.
  - unfold splitext. by rewrite Hs.
Qed.

Lemma no_extension_name_witness :
  new_filename "README" 0 = "README_copy0" ∧
  (splitext (new_filename "README" 0)).2 = "".
Proof. apply (no_extension_name "README" 0). reflexivity. Defined.

(** ** Directory creation *)

Lemma makedirs_present fs name :
  wf fs → normpath name = [] ∨ fs !! normpath name = Some Dir →
  makedirs name fs = Some fs.
Proof.
  intros Hwf Hd. unfold makedirs. apply makedirs_from_existing.
  intros r Hr [k Hk]. simpl. destruct Hd as [Hd|Hd].
  { rewrite Hd in Hk. by destruct r. }
  destruct k as [|c k]; [by rewrite Hk, app_nil_r in Hd|].
  apply (wf_prefix_dir fs r (c :: k)); [done| |done..]. rewrite <-Hk. by rewrite Hd.
Qed.



(** ** A missing source root *)

Lemma makedirs_target_source fs fs1 x :
  makedirs TARGET_DIR fs = Some fs1 →
  fs1 !! (SOURCE_DIR ++ x) = fs !! (SOURCE_DIR ++ x).
Proof.
  intros H. destruct (makedirs_lookup _ _ _ (SOURCE_DIR ++ x) H) as [?|(_&_&_&Hp)];
    [done|].
  rewrite normpath_proper in Hp by apply TARGET_DIR_proper.
  rewrite <-(app_nil_r TARGET_DIR) in Hp. by apply not_source_prefix_target in Hp.
Qed.

Lemma walk_loop_not_dir o fuel body top fs :
  scandir o fs top = None → walk_loop o fuel body top fs = Done fs.
Proof. intros H. destruct fuel; simpl; [done|]. by rewrite H. Qed.




(** ** Mirrored directories *)




(** ** The copies *)




(** ** What a run leaves alone *)



Lemma new_filename_underscore file i : In "_"%char (chars (new_filename file i)).
Proof.
  rewrite new_filename_chars. apply in_or_app. right.
  apply in_or_app. left. simpl. auto.
Qed.


(** ** Counting the copies *)

Section counting.
Implicit Types (p : path) (F : gset path).

Lemma renamed_snoc i X file : renamed i (X ++ [file]) = X ++ [new_filename file i].
Proof. unfold renamed. by rewrite parent_snoc, basename_snoc. Qed.

Lemma path_snoc p : p ≠ [] → ∃ X file, p = X ++ [file].
Proof. destruct p as [|c p _] using rev_ind; [done|]. eauto. Qed.

Lemma renamed_inj i j p p' :
  p ≠ [] → p' ≠ [] → renamed i p = renamed j p' → i = j ∧ p = p'.
Proof.
  intros (X & f & ->)%path_snoc (X' & f' & ->)%path_snoc.
  rewrite !renamed_snoc. by intros [-> [-> ->]%new_filename_inj]%app_inj_tail.
Qed.

Lemma size_set_map_inj (f : path → path) F :
  (∀ x y, x ∈ F → y ∈ F → f x = f y → x = y) →
  size (set_map f F : gset path) = size F.
Proof.
  intros Hinj. unfold set_map. rewrite size_list_to_set.
  - by rewrite length_fmap.
  - apply NoDup_fmap_2_strong; [|apply NoDup_elements].
    intros x y Hx%elem_of_elements Hy%elem_of_elements. by apply Hinj.
Qed.

Lemma size_copies F (l : list nat) :
  [] ∉ F → NoDup l →
  size (⋃ ((λ i, set_map (renamed i) F : gset path) <$> l)) = length l * size F.
Proof.
  intros HF. induction 1 as [|i l Hi Hl IH]; [done|].
  rewrite fmap_cons, union_list_cons, size_union, IH.
  - simpl. f_equal. apply size_set_map_inj. intros x y Hx Hy Heq.
    apply renamed_inj in Heq as [_ ?]; [done|by intros ->..].
  - intros p (x & -> & Hx)%elem_of_map
      (Y & (j & -> & Hj)%list_elem_of_fmap & (y & Heq & Hy)%elem_of_map)%elem_of_union_list.
    apply renamed_inj in Heq as [-> _]; [done|by intros ->..].
Qed.

(** The files under the target root after a run in which nothing was
    in the way: one renamed copy of every source file per pass. *)
Lemma files_under_target o copies fs0 fs' :
  wf fs0 → no_clash copies fs0 → files_under fs0 TARGET_DIR = ∅ →
  run o copies fs0 = Done fs' →
  files_under fs' TARGET_DIR =
  ⋃ ((λ i, set_map (renamed i) (files_under fs0 SOURCE_DIR)) <$> seq 0 copies).
Proof.
  intros Hwf Hnc Hempty E. apply set_eq. intros p.
  rewrite elem_of_files_under, elem_of_union_list. split.
  - intros [Hp (b & d & Hq)].
    destruct (clean_run_changes o copies fs0 Hwf Hnc) as (_ & _ & (Hc & _)).
    rewrite E in Hc. simpl in Hc.
    destruct (Hc (TARGET_DIR ++ p)) as [Heq|[[_ ?]|(data & Hg & _)]].
    + assert (p ∈ files_under fs0 TARGET_DIR) as Hin.
      { apply elem_of_files_under. split; [done|]. exists b, d. congruence. }
      rewrite Hempty in Hin. by apply not_elem_of_empty in Hin.
    + congruence.
    + destruct Hg as (X & file & i & r & Hi & Hf & Heq).
      apply app_inv_head in Heq. subst p.
      exists (set_map (renamed i) (files_under fs0 SOURCE_DIR)). split.
      * apply list_elem_of_fmap. exists i. split; [done|]. apply elem_of_seq. lia.
      * apply elem_of_map. exists (X ++ [file]). split; [by rewrite renamed_snoc|].
        apply elem_of_files_under. split; [by destruct X|eauto].
  - intros (Y & (i & -> & [_ Hi]%elem_of_seq)%list_elem_of_fmap
              & (p0 & -> & Hp0)%elem_of_map).
    apply elem_of_files_under in Hp0 as [(X & file & ->)%path_snoc (b & d & Hf)].
    rewrite renamed_snoc. split; [by destruct X|]. exists true, d.
    by apply (clean_run_copy o copies fs0 Hwf Hnc fs' X file i b d).
Qed.

End counting.




(** ** The run as the execution of its plan *)

Section plans.
Context (o : listing_order).
Implicit Types (fs : filesys) (X : path) (a : op).

Lemma run_ops_app ops1 ops2 fs :
  run_ops (ops1 ++ ops2) fs = run_ops ops1 fs >>> run_ops ops2.
Proof. apply for_each_app. Qed.

Lemma run_ops_cons a ops fs :
  run_ops (a :: ops) fs = call (exec a) fs >>> run_ops ops.
Proof. unfold run_ops. by rewrite for_each_cons. Qed.

Lemma source_child_proper fs X d :
  wf fs → Forall proper_name X → is_Some (fs !! (SOURCE_DIR ++ X ++ [d])) →
  Forall proper_name (X ++ [d]).
Proof. intros Hwf HX Hd. by apply (source_path_proper (X ++ [d]) fs). Qed.

(** The walk only reads the source tree. *)
Lemma walk_ext fuel fs fs' X :
  wf fs → Forall proper_name X → source_same fs fs' →
  walk o fuel fs' (SOURCE_DIR ++ X) = walk o fuel fs (SOURCE_DIR ++ X).
Proof.
  intros Hwf. revert X. induction fuel as [|fuel IH]; intros X HX Hs; [done|].
  simpl. rewrite (scandir_ext o fs' fs).
  - destruct (scandir o fs (SOURCE_DIR ++ X)) as [[dirs files]|] eqn:E; [|done].
    f_equal. apply Forall_bind_ext, Forall_forall. intros d Hd.
    unfold join. rewrite <-app_assoc. apply IH; [|done].
    apply source_dir_listing in E as (_ & Hdirs & _); [|done..].
    apply (source_child_proper fs); [done..|]. apply Hdirs in Hd. by rewrite Hd.
  - apply Forall_app. split; [apply SOURCE_DIR_proper|done].
  - apply SOURCE_DIR_nonempty.
  - apply Hs.
  - intros n. rewrite <-app_assoc. apply Hs.
Qed.

Lemma beyond_depth fs k : depth fs < length k → fs !! k = None.
Proof.
  intros Hlt. destruct (fs !! k) eqn:E; [|done].
  assert (length k ≤ depth fs) by (apply depth_ge; by rewrite E). lia.
Qed.

Lemma walk_beyond_depth fuel fs X :
  Forall proper_name X → depth fs < length (SOURCE_DIR ++ X) →
  walk o fuel fs (SOURCE_DIR ++ X) = [].
Proof.
  intros HX Hlt. destruct fuel as [|fuel]; [done|]. simpl.
  rewrite scandir_None; [done| | |].
  - apply Forall_app. split; [apply SOURCE_DIR_proper|done].
  - apply SOURCE_DIR_nonempty.
  - by rewrite beyond_depth.
Qed.

(** Fuel beyond the depth of the file system changes nothing. *)
Lemma walk_fuel fuel1 fuel2 fs X :
  wf fs → Forall proper_name X →
  depth fs < length (SOURCE_DIR ++ X) + fuel1 →
  depth fs < length (SOURCE_DIR ++ X) + fuel2 →
  walk o fuel1 fs (SOURCE_DIR ++ X) = walk o fuel2 fs (SOURCE_DIR ++ X).
Proof.
  intros Hwf. revert fuel2 X.
  induction fuel1 as [|fuel1 IH]; intros fuel2 X HX H1 H2.
  { rewrite (walk_beyond_depth fuel2) by (done || lia). done. }
  destruct fuel2 as [|fuel2].
  { rewrite (walk_beyond_depth (S fuel1)) by (done || lia). done. }
  simpl. destruct (scandir o fs (SOURCE_DIR ++ X)) as [[dirs files]|] eqn:E; [|done].
  f_equal. apply Forall_bind_ext, Forall_forall. intros d Hd.
  unfold join. rewrite <-app_assoc.
  apply source_dir_listing in E as (_ & Hdirs & _); [|done..].
  apply IH.
  - apply (source_child_proper fs); [done..|]. apply Hdirs in Hd. by rewrite Hd.
  - rewrite !length_app in *. simpl. lia.
  - rewrite !length_app in *. simpl. lia.
Qed.

(** What the walk yields are directories of the source tree with their
    listings. *)
Lemma elem_of_walk fuel fs X root dirs files :
  wf fs → Forall proper_name X →
  (root, dirs, files) ∈ walk o fuel fs (SOURCE_DIR ++ X) →
  ∃ Y, root = SOURCE_DIR ++ X ++ Y ∧ Forall proper_name (X ++ Y) ∧
       scandir o fs root = Some (dirs, files).
Proof.
  intros Hwf. revert X. induction fuel as [|fuel IH]; intros X HX Hin.
  { by apply elem_of_nil in Hin. }
  simpl in Hin.
  destruct (scandir o fs (SOURCE_DIR ++ X)) as [[dirs0 files0]|] eqn:E.
  2:{ by apply elem_of_nil in Hin. }
  apply elem_of_cons in Hin as [[= -> -> ->]|Hin].
  { exists []. by rewrite !app_nil_r. }
  apply list_elem_of_bind in Hin as (d & Hin & Hd).
  unfold join in Hin. rewrite <-app_assoc in Hin.
  apply source_dir_listing in E as (_ & Hdirs & _); [|done..].
  apply IH in Hin as (Y & -> & HY & Hs).
  - exists (d :: Y). by rewrite <-!app_assoc in *.
  - apply (source_child_proper fs); [done..|]. apply Hdirs in Hd. by rewrite Hd.
Qed.

Lemma legit_at_source copies fs fs' a :
  source_same fs fs' → legit_at copies fs a → legit_at copies fs' a.
Proof.
  intros Hs. destruct a as [|root|root file i]; simpl; [done|..].
  - intros (X & -> & Hd). exists X. by rewrite Hs.
  - intros (X & -> & Hd & Hf & Hi). exists X.
    rewrite <-app_assoc in *. by rewrite !Hs.
Qed.

Lemma elem_of_pass_ops i l a :
  a ∈ pass_ops i l ↔
  ∃ root dirs files, (root, dirs, files) ∈ l ∧ a ∈ body_ops i root files.
Proof.
  unfold pass_ops. rewrite list_elem_of_bind. split.
  - intros ([[root dirs] files] & Ha & Hin). by exists root, dirs, files.
  - intros (root & dirs & files & Hin & Ha). by exists (root, dirs, files).
Qed.

Lemma body_ops_legit copies i fs X dirs files a :
  wf fs → Forall proper_name X → i < copies →
  scandir o fs (SOURCE_DIR ++ X) = Some (dirs, files) →
  a ∈ body_ops i (SOURCE_DIR ++ X) files → legit_at copies fs a.
Proof.
  intros Hwf HX Hi Hs Ha.
  destruct (source_dir_listing o X fs dirs files Hwf HX Hs) as (Hd & _ & Hfiles & _).
  unfold body_ops in Ha. apply elem_of_cons in Ha as [->|Ha].
  - by exists X.
  - apply list_elem_of_fmap in Ha as (file & -> & Hf).
    exists X. split_and!; [done..| |done].
    apply Hfiles in Hf as (r & data & Hf). rewrite <-!app_assoc in *.
    by rewrite Hf.
Qed.

(** The calls of a pass are calls the walk issues. *)
Lemma pass_ops_legit copies i fuel fs X a :
  wf fs → Forall proper_name X → i < copies →
  a ∈ pass_ops i (walk o fuel fs (SOURCE_DIR ++ X)) →
  legit_at copies fs a.
Proof.
  intros Hwf HX Hi (root & dirs & files & Hin & Ha)%elem_of_pass_ops.
  apply elem_of_walk in Hin as (Y & -> & HY & Hs); [|done..].
  by apply (body_ops_legit copies i fs (X ++ Y) dirs files).
Qed.

(** A list of calls the walk issues keeps the file system well formed
    and moves it along [evolves]. *)
Lemma run_ops_evolves copies ops fs0 fs :
  Forall (legit_at copies fs0) ops → source_same fs0 fs → wf fs →
  wf (final_fs (run_ops ops fs)) ∧ evolves fs (final_fs (run_ops ops fs)).
Proof.
  intros Hops. revert fs. induction Hops as [|a ops Ha _ IH]; intros fs Hs Hwf.
  { done. }
  rewrite run_ops_cons. unfold call.
  destruct (exec a fs) as [fs1|] eqn:E; simpl; [|done].
  destruct (exec_evolves copies a fs fs1 Hwf) as [Hwf1 He1]; [|done|].
  { by apply (legit_at_source copies fs0). }
  destruct (IH fs1) as [Hwf2 He2]; [|done|].
  { intros x. destruct He1 as [Hs1 _]. by rewrite Hs1. }
  split; [done|by etrans].
Qed.

Lemma walk_loop_evolves i fuel X fs :
  wf fs → Forall proper_name X →
  wf (final_fs (walk_loop o fuel (walk_body i) (SOURCE_DIR ++ X) fs)) ∧
  evolves fs (final_fs (walk_loop o fuel (walk_body i) (SOURCE_DIR ++ X) fs)).
Proof.
  intros Hwf HX.
  apply (walk_loop_ok o (S i) wf evolves (λ _ H, H)
    (λ fs fs' x H, proj1 H x) (exec_evolves (S i))); [lia|done..].
Qed.

(** The loop over [os.walk] makes the calls of the pass, in order. *)
Lemma walk_loop_plan i fuel fs X :
  wf fs → Forall proper_name X →
  walk_loop o fuel (walk_body i) (SOURCE_DIR ++ X) fs =
  run_ops (pass_ops i (walk o fuel fs (SOURCE_DIR ++ X))) fs.
Proof.
  revert X fs. induction fuel as [|fuel IH]; intros X fs Hwf HX; [done|].
  simpl. destruct (scandir o fs (SOURCE_DIR ++ X)) as [[dirs files]|] eqn:E; [|done].
  unfold pass_ops. rewrite bind_cons. fold (pass_ops i).
  rewrite run_ops_app, walk_body_ops.
  pose proof (run_ops_evolves (S i) (body_ops i (SOURCE_DIR ++ X) files) fs fs) as Hb.
  destruct (run_ops (body_ops i (SOURCE_DIR ++ X) files) fs) as [fs1|fs1] eqn:E1;
    simpl; [|done].
  destruct Hb as [Hwf1 (Hs1 & _)]; [|done..|].
  { apply Forall_forall. intros a Ha.
    apply (body_ops_legit (S i) i fs X dirs files); [done|done|lia|done..]. }
  simpl in Hwf1, Hs1.
  apply source_dir_listing in E as (_ & Hdirs & _); [|done..].
  assert (∀ l fsa, l ⊆ dirs → wf fsa → source_same fs fsa →
    for_each l (λ d, walk_loop o fuel (walk_body i) (join (SOURCE_DIR ++ X) [d])) fsa
    = run_ops (pass_ops i (l ≫= λ d, walk o fuel fs (join (SOURCE_DIR ++ X) [d]))) fsa)
    as Hloop.
  { induction l as [|d l IHl]; intros fsa Hl Hwfa Hsa; [done|].
    assert (Forall proper_name (X ++ [d])) as HXd.
    { apply (source_child_proper fs); [done..|].
      assert (d ∈ dirs) as Hd by (apply Hl; by left).
      apply Hdirs in Hd. by rewrite Hd. }
    rewrite for_each_cons, bind_cons. unfold pass_ops at 1. rewrite bind_app.
    fold (pass_ops i). rewrite run_ops_app.
    unfold join at 1 3. rewrite <-!app_assoc.
    rewrite IH, (walk_ext fuel fs fsa) by done.
    pose proof (walk_loop_evolves i fuel (X ++ [d]) fsa Hwfa HXd) as [Hwfb (Hsb & _)].
    rewrite IH, (walk_ext fuel fs fsa) in Hwfb, Hsb by done.
    destruct (run_ops _ fsa) as [fsb|fsb]; simpl; [|done].
    apply IHl; [|done|].
    - intros y Hy. apply Hl. by right.
    - intros x. simpl in Hsb. by rewrite Hsb. }
  apply Hloop; [done..|]. intros x. apply Hs1.
Qed.

Lemma depth_mono fs fs' :
  (∀ k, is_Some (fs !! k) → is_Some (fs' !! k)) → depth fs ≤ depth fs'.
Proof.
  intros H. unfold depth at 1.
  destruct (decide (length <$> elements (dom fs) = [])) as [->|Hne]; [simpl; lia|].
  apply max_list_elem_of in Hne.
  apply list_elem_of_fmap in Hne as (k & -> & Hk).
  apply elem_of_elements, elem_of_dom in Hk. by apply depth_ge, H.
Qed.

Lemma evolves_depth fs fs' : evolves fs fs' → depth fs ≤ depth fs'.
Proof.
  intros (_ & Hd & Hf & _). apply depth_mono. intros k [[b d|] Hk].
  - destruct (Hf _ _ _ Hk) as (b' & d' & ->). done.
  - by rewrite (Hd _ Hk).
Qed.

(** The run executes its plan. *)
Theorem run_plan copies fs :
  wf fs → run o copies fs = run_ops (plan o copies fs) fs.
Proof.
  intros Hwf. unfold run, plan. rewrite run_ops_cons.
  pose proof (exec_evolves copies MkTarget fs) as Hmk.
  change (call (makedirs TARGET_DIR) fs) with (call (exec MkTarget) fs).
  unfold call. destruct (exec MkTarget fs) as [fs1|] eqn:E1; simpl; [|done].
  destruct (Hmk fs1 Hwf I eq_refl) as [Hwf1 He1]. clear Hmk.
  assert (∀ l fsa, wf fsa → evolves fs fsa →
    for_each l (λ i, for_os_walk o (walk_body i) SOURCE_DIR) fsa =
    run_ops (l ≫= λ i, pass_ops i (walk o (S (depth fs)) fs SOURCE_DIR)) fsa)
    as Hloop.
  { induction l as [|i l IHl]; intros fsa Hwfa Hea; [done|].
    rewrite for_each_cons, bind_cons, run_ops_app. unfold for_os_walk at 1.
    rewrite <-(app_nil_r SOURCE_DIR).
    pose proof (walk_loop_evolves i (S (depth fsa)) [] fsa Hwfa ltac:(done))
      as [Hwfb Heb].
    assert (walk o (S (depth fsa)) fsa (SOURCE_DIR ++ []) =
            walk o (S (depth fs)) fs (SOURCE_DIR ++ [])) as Hw.
    { rewrite (walk_ext _ fs fsa); [|done|done|by destruct Hea].
      pose proof (evolves_depth _ _ Hea).
      apply walk_fuel; [done|done|lia..]. }
    rewrite walk_loop_plan, Hw in Hwfb, Heb |- * by done.
    destruct (run_ops _ fsa) as [fsb|fsb]; simpl; [|done].
    apply IHl; [done|by etrans]. }
  by apply Hloop.
Qed.

End plans.

(** ** A run that raises *)

Lemma run_ops_Done_cons a ops s t :
  run_ops (a :: ops) s = Done t ↔ ∃ s1, exec a s = Some s1 ∧ run_ops ops s1 = Done t.
Proof.
  rewrite run_ops_cons, and_then_Done. split.
  - intros (s1 & H1%call_Done & H2). eauto.
  - intros (s1 & H1 & H2). exists s1. by rewrite call_Done.
Qed.

Lemma run_ops_Done_app ops1 ops2 s t :
  run_ops (ops1 ++ ops2) s = Done t ↔
  ∃ s1, run_ops ops1 s = Done s1 ∧ run_ops ops2 s1 = Done t.
Proof. by rewrite run_ops_app, and_then_Done. Qed.

(** A list of calls raises at its first failing call, in the state the
    calls before it produced. *)
Lemma run_ops_Raised ops s t :
  run_ops ops s = Raised t ↔
  ∃ ops1 a ops2, ops = ops1 ++ a :: ops2 ∧
    run_ops ops1 s = Done t ∧ exec a t = None.
Proof.
  split.
  - revert s. induction ops as [|a ops IH]; intros s; [done|].
    rewrite run_ops_cons. unfold call.
    destruct (exec a s) as [s1|] eqn:E; simpl.
    + intros (ops1 & b & ops2 & -> & H1 & H2)%IH.
      exists (a :: ops1), b, ops2. split_and!; [done| |done].
      apply run_ops_Done_cons. eauto.
    + intros [= <-]. by exists [], a, ops.
  - intros (ops1 & a & ops2 & -> & H1 & H2).
    rewrite run_ops_app, H1. simpl. rewrite run_ops_cons. unfold call.
    by rewrite H2.
Qed.

Lemma plan_legit o copies fs :
  wf fs → Forall (legit_at copies fs) (plan o copies fs).
Proof.
  intros Hwf. unfold plan. constructor; [done|].
  apply Forall_forall. intros a (i & Ha & [_ Hi]%elem_of_seq)%list_elem_of_bind.
  rewrite <-(app_nil_r SOURCE_DIR) in Ha.
  apply (pass_ops_legit o copies i _ fs []) in Ha; [done|done|done|lia].
Qed.

(** A run that raises stops at the first failing call of its plan. *)
Lemma run_Raised o copies fs fs' :
  wf fs →
  run o copies fs = Raised fs' ↔
  ∃ ops1 a ops2, plan o copies fs = ops1 ++ a :: ops2 ∧
    run_ops ops1 fs = Done fs' ∧ exec a fs' = None.
Proof. intros Hwf. by rewrite run_plan, run_ops_Raised. Qed.

(** C7. When a library call [a] of the run fails (a read of a source
    file or a write under the target root), the calls [ops1] before it
    having succeeded, the run raises at once: it ends in the file system
    [fs'] these calls produced and in which [a] failed (no retry, none
    of the later calls [ops2] is made), and every file system reached on
    the way evolves into [fs'] (directories stay directories and files
    stay files: nothing written is removed or rolled back). *)
Theorem failure_ends_run o copies fs ops1 a ops2 fs' :
  wf fs →
  plan o copies fs = ops1 ++ a :: ops2 →
  run_ops ops1 fs = Done fs' → exec a fs' = None →
  run o copies fs = Raised fs' ∧
  (∀ l1 l2 fsm, ops1 = l1 ++ l2 → run_ops l1 fs = Done fsm → evolves fsm fs').
Proof.
  intros Hwf Hp H1 H2. split.
  { apply run_Raised; [done|]. by exists ops1, a, ops2. }
  intros l1 l2 fsm -> Hm.
  pose proof (plan_legit o copies fs Hwf) as Hl. rewrite Hp in Hl.
  apply Forall_app in Hl as [Hl _]. apply Forall_app in Hl as [Hl1 Hl2].
  destruct (run_ops_evolves copies l1 fs fs Hl1) as [Hwfm Hem]; [done..|].
  rewrite Hm in Hwfm, Hem. simpl in Hwfm, Hem.
  apply run_ops_Done_app in H1 as (fsm' & Hm' & H1).
  assert (fsm' = fsm) as -> by congruence.
  destruct (run_ops_evolves copies l2 fs fsm Hl2) as [_ He]; [by destruct Hem|done|].
  by rewrite H1 in He.
Qed.

Lemma failure_ends_run_witness :
  let ops1 := [MkTarget; Mkdir SOURCE_DIR] in
  let fs' := final_fs (run_ops ops1 ex_unreadable) in
  run sorted_order 1 ex_unreadable = Raised fs' ∧
  (∀ l1 l2 fsm, ops1 = l1 ++ l2 → run_ops l1 ex_unreadable = Done fsm →
     evolves fsm fs').
Proof.
  apply (failure_ends_run sorted_order 1 ex_unreadable
           [MkTarget; Mkdir SOURCE_DIR] (Copy SOURCE_DIR "a" 0)
           [Copy SOURCE_DIR "b" 0]).
  - apply wf_check_correct. vm_compute. reflexivity.
  - vm_compute. reflexivity.
  - apply succeeded_Done. vm_compute. reflexivity.
  - vm_compute. reflexivity.
Defined.

(** ** Calls that can be exchanged *)

Section exchange.
Context (Inv : filesys → Prop).
Implicit Types (a b : op) (s t : filesys) (Rg : path → Prop).

Lemma local_frame Rg a s s' q :
  local Inv Rg a → Inv s → exec a s = Some s' → ¬ Rg q → s' !! q = s !! q.
Proof.
  intros Hl HI E Hq.
  destruct (Hl s s s' HI HI ltac:(done) E) as (s2 & E2 & _ & Hout).
  assert (s2 = s') as -> by congruence. by apply Hout.
Qed.

(** Calls that are local to disjoint regions can be exchanged. *)
Lemma local_commutes Rg1 Rg2 a b :
  (∀ q, Decision (Rg1 q)) → (∀ q, Decision (Rg2 q)) →
  (∀ q, Rg1 q → Rg2 q → False) →
  local Inv Rg1 a → local Inv Rg2 b → stable Inv a → stable Inv b →
  commutes Inv a b.
Proof.
  intros Hd1 Hd2 Hdisj Hla Hlb Hsa Hsb s s1 s2 HI Ea Eb.
  pose proof (Hsa _ _ HI Ea) as HI1.
  destruct (Hlb s1 s s2 HI1 HI) as (t1 & Eb' & Hin1 & Hout1); [|done|].
  { intros q Hq. symmetry. apply (local_frame Rg1 a); [done..|]. eauto. }
  pose proof (Hsb _ _ HI Eb') as HIt1.
  destruct (Hla s t1 s1 HI HIt1) as (t2 & Ea' & Hin2 & Hout2); [|done|].
  { intros q Hq. apply Hout1. eauto. }
  exists t1. split; [done|]. rewrite Ea'. f_equal. apply map_eq. intros q.
  destruct (decide (Rg1 q)) as [H1|H1].
  - rewrite (Hin2 q H1). symmetry. apply (local_frame Rg2 b); [done..|]. eauto.
  - rewrite (Hout2 q H1). destruct (decide (Rg2 q)) as [H2|H2].
    + by apply Hin1.
    + rewrite (Hout1 q H2).
      rewrite (local_frame Rg2 b s1 s2 q) by done.
      by rewrite (local_frame Rg1 a s s1 q).
Qed.

Lemma run_ops_stable ops s t :
  Forall (stable Inv) ops → Inv s → run_ops ops s = Done t → Inv t.
Proof.
  intros Hops. revert s. induction Hops as [|a ops Ha _ IH]; intros s HI.
  - by intros [= <-].
  - intros (s1 & E1 & E)%run_ops_Done_cons. apply (IH s1); [|done]. by eapply Ha.
Qed.

(** A call moves behind calls it can be exchanged with. *)
Lemma move_behind a B C s t :
  Forall (commutes Inv a) B → Forall (stable Inv) B → Inv s →
  run_ops (a :: B ++ C) s = Done t → run_ops (B ++ a :: C) s = Done t.
Proof.
  intros Hc. revert s. induction Hc as [|b B Hb _ IH]; intros s Hst HI; [done|].
  apply Forall_cons in Hst as [Hsb Hst].
  intros (s1 & Ea & (s2 & Eb & E)%run_ops_Done_cons)%run_ops_Done_cons.
  destruct (Hb s s1 s2 HI Ea Eb) as (s1' & Eb' & Ea').
  simpl. apply run_ops_Done_cons. exists s1'. split; [done|].
  apply IH; [done|by eapply Hsb|]. apply run_ops_Done_cons. eauto.
Qed.

(** Two blocks of calls that can be exchanged one by one. *)
Lemma swap_blocks A B C s t :
  Forall (λ a, Forall (commutes Inv a) B) A →
  Forall (stable Inv) A → Forall (stable Inv) B → Inv s →
  run_ops (A ++ B ++ C) s = Done t → run_ops (B ++ A ++ C) s = Done t.
Proof.
  intros Hc. revert s. induction Hc as [|a A Ha _ IH]; intros s HsA HsB HI; [done|].
  apply Forall_cons in HsA as [Hsa HsA]. simpl.
  intros (s1 & Ea & E)%run_ops_Done_cons.
  apply move_behind; [done..|]. apply run_ops_Done_cons. exists s1.
  split; [done|]. apply IH; [done|done|by eapply Hsa|done].
Qed.

(** Blocks of calls that can be exchanged may come in any order. *)
Lemma permute_blocks {K : Type} (blocks : K → list op) (l1 l2 : list K) C s t :
  l1 ≡ₚ l2 → NoDup l1 →
  (∀ x y, x ∈ l1 → y ∈ l1 → x ≠ y →
     Forall (λ a, Forall (commutes Inv a) (blocks y)) (blocks x)) →
  (∀ x, x ∈ l1 → Forall (stable Inv) (blocks x)) →
  Inv s →
  run_ops ((l1 ≫= blocks) ++ C) s = Done t →
  run_ops ((l2 ≫= blocks) ++ C) s = Done t.
Proof.
  intros Hp. revert s C.
  induction Hp as [|x l l' Hp IH|x y l|l l' l'' Hp1 IH1 Hp2 IH2];
    intros s C Hnd Hc Hst HI.
  - done.
  - rewrite !bind_cons, <-!app_assoc.
    intros (s1 & E1 & E)%run_ops_Done_app. apply run_ops_Done_app.
    exists s1. split; [done|]. apply NoDup_cons in Hnd as [_ Hnd].
    apply IH; [done| | |by eapply run_ops_stable; [apply Hst; left|..]|done].
    + intros u v Hu Hv. apply Hc; by right.
    + intros u Hu. apply Hst. by right.
  - rewrite !bind_cons, <-!app_assoc. apply swap_blocks; [|by apply Hst; repeat constructor..|done].
    apply Hc; [by left|by right; left|].
    apply NoDup_cons in Hnd as [Hnd _]. intros ->. apply Hnd. by left.
  - intros E. apply IH2.
    + by rewrite <-Hp1.
    + intros u v Hu Hv. apply Hc; by rewrite Hp1.
    + intros u Hu. apply Hst. by rewrite Hp1.
    + done.
    + by apply IH1.
Qed.

End exchange.

(** ** The calls of the script are local *)

Section locality.
Context (fs : filesys) (Inv : filesys → Prop).
Hypothesis Inv_source : ∀ s, Inv s → source_same fs s.
Implicit Types (s : filesys) (Z q : path) (Rg : path → Prop).

Lemma makedirs_from_result p s s' q :
  makedirs_from [] p s = Some s' →
  s' !! q = if decide (q ≠ [] ∧ q `prefix_of` p) then Some Dir else s !! q.
Proof.
  intros H. case_decide as Hq.
  - destruct Hq as [Hne Hp]. by apply (makedirs_from_dirs [] _ _ _ _ H).
  - destruct (makedirs_from_lookup _ _ _ _ q H) as [?|(_&_&r&?&?&->)]; [done|].
    by destruct Hq.
Qed.

(** [os.makedirs] only depends on, and only changes, the part of its
    path that is not yet known to exist. *)
Lemma mkdir_local Z Rg :
  Forall proper_name Z →
  (∀ r, r ≠ [] → r `prefix_of` TARGET_DIR ++ Z →
        Rg r ∨ ∀ s, Inv s → s !! r = Some Dir) →
  local Inv Rg (Mkdir (SOURCE_DIR ++ Z)).
Proof.
  intros HZ Hcond s s2 s' HI HI2 Hag E. rewrite exec_Mkdir in E |- * by done.
  assert (is_Some (makedirs_from [] (TARGET_DIR ++ Z) s2)) as [s2' E2].
  { apply makedirs_from_is_Some. intros r Hr Hp b d. simpl.
    destruct (Hcond r Hr Hp) as [HRg|Hdir].
    - rewrite (Hag r HRg).
      by apply (proj1 (makedirs_from_is_Some [] _ s) (mk_is_Some _ _ E) r).
    - by rewrite (Hdir s2 HI2). }
  exists s2'. split; [done|].
  split; intros q Hq;
    rewrite (makedirs_from_result _ _ _ q E2), ?(makedirs_from_result _ _ _ q E);
    case_decide as Hc; try done.
  - by apply Hag.
  - destruct Hc as [Hne Hp]. destruct (Hcond q Hne Hp) as [?|Hdir]; [done|].
    by rewrite (Hdir s2 HI2).
Qed.

(** [shutil.copy] only depends on what is at its generated path and
    inside it, and writes there. *)
Lemma copy_local Z file i Rg :
  Forall proper_name Z → proper_name file →
  Rg (generated_path Z file i) → Rg (generated_path Z file i ++ [file]) →
  (Rg (TARGET_DIR ++ Z) ∨ ∀ s, Inv s → s !! (TARGET_DIR ++ Z) = Some Dir) →
  local Inv Rg (Copy (SOURCE_DIR ++ Z) file i).
Proof.
  intros HZ Hf Hb Hbf Hpar s s2 s' HI HI2 Hag E. unfold generated_path in Hb, Hbf.
  rewrite exec_Copy in E |- * by done.
  rewrite (Inv_source s2 HI2). rewrite (Inv_source s HI) in E.
  destruct (fs !! (SOURCE_DIR ++ Z ++ [file])) as [[[] data|]|];
    cbn beta iota zeta in E |- *; try done.
  assert (landing s2 Z file i = landing s Z file i) as HL.
  { unfold landing. by rewrite (Hag _ Hb). }
  assert (Rg (landing s Z file i)) as HRL.
  { unfold landing.
    by destruct (bool_decide (s !! (TARGET_DIR ++ Z ++ [new_filename file i]) = _)). }
  rewrite HL, (Hag _ HRL).
  case_bool_decide as Hd; [done|].
  assert (bool_decide (s2 !! parent (landing s Z file i) = Some Dir) =
          bool_decide (s !! parent (landing s Z file i) = Some Dir)) as ->.
  { rewrite landing_parent.
    destruct (bool_decide (s !! (TARGET_DIR ++ Z ++ [new_filename file i]) = _)).
    - by rewrite (Hag _ Hb).
    - destruct Hpar as [HR|Hdir]; [by rewrite (Hag _ HR)|].
      by rewrite (Hdir s HI), (Hdir s2 HI2). }
  case_bool_decide; [|done]. injection E as <-.
  eexists. split; [done|]. split; intros q Hq.
  - destruct (decide (landing s Z file i = q)) as [<-|Hne].
    + by rewrite !lookup_insert_eq.
    + rewrite !lookup_insert_ne by done. by apply Hag.
  - rewrite lookup_insert_ne; [done|]. by intros <-.
Qed.

End locality.

(** ** The order of the listings *)

Section order.
Context (fs : filesys) (i : nat).
Hypothesis fs_wf : wf fs.
Implicit Types (o : listing_order) (s t : filesys) (X Y q : path) (C : list op).

(** The file systems met during a run on [fs]. *)
Local Abbreviation met s := (wf s ∧ source_same fs s).

Lemma settled_met X s : settled fs X s → met s.
Proof. by intros (? & ? & _). Qed.

Lemma met_stable copies a : legit_at copies fs a → stable (λ s, met s) a.
Proof.
  intros Hl s s' [Hwf Hs] E.
  destruct (exec_evolves copies a s s' Hwf) as [Hwf' (Hs' & _)]; [|done|].
  { by apply (legit_at_source copies fs). }
  split; [done|]. intros x. by rewrite Hs', Hs.
Qed.

Lemma settled_stable copies X a :
  legit_at copies fs a → stable (settled fs X) a.
Proof.
  intros Hl s s' (Hwf & Hs & Hd) E.
  destruct (exec_evolves copies a s s' Hwf) as [Hwf' (Hs' & Hd' & _)]; [|done|].
  { by apply (legit_at_source copies fs). }
  split_and!; [done| |by apply Hd']. intros x. by rewrite Hs', Hs.
Qed.

(** After [os.makedirs] for the directory [X] of the walk, its
    counterpart is in place. *)
Lemma settled_after_mkdir X s s' :
  Forall proper_name X → fs !! (SOURCE_DIR ++ X) = Some Dir → met s →
  exec (Mkdir (SOURCE_DIR ++ X)) s = Some s' → settled fs X s'.
Proof.
  intros HX Hd [Hwf Hs] E.
  destruct (met_stable 0 (Mkdir (SOURCE_DIR ++ X)) ltac:(by exists X) s s')
    as [Hwf' Hs']; [done..|].
  split_and!; [done..|]. rewrite exec_Mkdir in E by done.
  apply (makedirs_from_dirs [] _ _ _ _ E); [apply TARGET_DIR_nonempty|done].
Qed.

Lemma below_disjoint X d d' q :
  d ≠ d' → below (TARGET_DIR ++ X ++ [d]) q → below (TARGET_DIR ++ X ++ [d']) q →
  False.
Proof.
  intros Hne [r ->] [r' E]. rewrite <-!app_assoc in E.
  do 2 apply app_inv_head in E. by simplify_eq.
Qed.

Lemma copy_region_disjoint X file file' q :
  file ≠ file' → copy_region X file i q → copy_region X file' i q → False.
Proof.
  unfold copy_region, generated_path. intros Hne [-> | ->] [E|E].
  - do 2 apply app_inv_head in E. injection E as E.
    by apply new_filename_inj in E as [E' _].
  - apply (f_equal length) in E. rewrite !length_app in E. simpl in E. lia.
  - apply (f_equal length) in E. rewrite !length_app in E. simpl in E. lia.
  - by apply app_inj_tail in E as [_ E'].
Qed.

(** The copy of a file of [X] is local to its generated path. *)
Lemma file_copy_local X file :
  Forall proper_name X → proper_name file →
  local (settled fs X) (copy_region X file i) (Copy (SOURCE_DIR ++ X) file i).
Proof.
  intros HX Hf.
  apply (copy_local fs (settled fs X) (λ s H, proj1 (proj2 H))); [done..| | |].
  - by left.
  - by right.
  - right. by intros s (_ & _ & ?).
Qed.

(** The calls for the subtree of a child [d] of [X] are local to the
    counterpart of the child. *)
Lemma child_local o fuel X d a :
  Forall proper_name (X ++ [d]) →
  a ∈ pass_ops i (walk o fuel fs (SOURCE_DIR ++ X ++ [d])) →
  local (settled fs X) (below (TARGET_DIR ++ X ++ [d])) a.
Proof.
  intros HXd (root & dirs & files & Hin & Ha)%elem_of_pass_ops.
  apply elem_of_walk in Hin as (Y & -> & HY & Hs); [|done..].
  destruct (source_dir_listing o _ fs dirs files fs_wf HY Hs) as (_ & _ & Hfiles & _).
  assert (∀ Z, below (TARGET_DIR ++ X ++ [d]) (TARGET_DIR ++ ((X ++ [d]) ++ Y) ++ Z))
    as Hbelow.
  { intros Z. exists (Y ++ Z). by rewrite <-!app_assoc. }
  apply elem_of_cons in Ha as [->|Ha].
  - apply (mkdir_local (settled fs X)); [done|]. intros r Hr Hp.
    replace (TARGET_DIR ++ (X ++ [d]) ++ Y)
      with ((TARGET_DIR ++ X) ++ d :: Y) in Hp by by rewrite <-!app_assoc.
    assert (r `prefix_of` TARGET_DIR ++ X → ∀ s, settled fs X s → s !! r = Some Dir)
      as Hup.
    { intros [k Hk] s (Hwf & _ & Hd). destruct k as [|c k].
      - by rewrite app_nil_r in Hk; subst r.
      - rewrite Hk in Hd. by apply (wf_prefix_dir s r (c :: k)). }
    apply prefix_app_cases in Hp as [Hp|([|c b] & -> & Hb)].
    + right. by apply Hup.
    + right. apply Hup. by rewrite app_nil_r.
    + left. apply prefix_cons_inv_1 in Hb as ->. exists b.
      by rewrite <-!app_assoc.
  - apply list_elem_of_fmap in Ha as (file & -> & Hf).
    apply Hfiles in Hf as (r & data & Hf).
    destruct (source_file_proper fs _ file fs_wf (mk_is_Some _ _ Hf)) as [_ Hpf].
    apply (copy_local fs (settled fs X) (λ s H, proj1 (proj2 H))); [done..| | |].
    + apply Hbelow.
    + unfold generated_path. rewrite <-(app_assoc TARGET_DIR), <-(app_assoc _ _ [file]).
      apply Hbelow.
    + left. specialize (Hbelow []). by rewrite app_nil_r in Hbelow.
Qed.

(** Two listings of a directory hold the same names. *)
Lemma scandir_perm o1 o2 X dirs1 files1 dirs2 files2 :
  Forall proper_name X →
  scandir o1 fs (SOURCE_DIR ++ X) = Some (dirs1, files1) →
  scandir o2 fs (SOURCE_DIR ++ X) = Some (dirs2, files2) →
  dirs1 ≡ₚ dirs2 ∧ files1 ≡ₚ files2.
Proof.
  intros HX H1 H2.
  apply source_dir_listing in H1 as (_ & Hd1 & Hf1 & Hnd1 & Hnf1); [|done..].
  apply source_dir_listing in H2 as (_ & Hd2 & Hf2 & Hnd2 & Hnf2); [|done..].
  split; apply NoDup_Permutation; try done; intros x.
  - by rewrite Hd1, Hd2.
  - by rewrite Hf1, Hf2.
Qed.

(** Blocks of calls replaced one by one. *)
Lemma replace_blocks {K : Type} (B1 B2 : K → list op) (l : list K) C s t :
  (∀ x C s t, x ∈ l → met s →
     run_ops (B1 x ++ C) s = Done t → run_ops (B2 x ++ C) s = Done t) →
  (∀ x, x ∈ l → Forall (stable (λ s, met s)) (B2 x)) →
  met s →
  run_ops ((l ≫= B1) ++ C) s = Done t → run_ops ((l ≫= B2) ++ C) s = Done t.
Proof.
  revert s. induction l as [|x l IH]; intros s Hrep Hst HI; [done|].
  rewrite !bind_cons, <-!app_assoc. intros E.
  apply Hrep in E; [|by left|done].
  apply run_ops_Done_app in E as (s1 & E1 & E). apply run_ops_Done_app.
  exists s1. split; [done|]. apply IH; [| | |done].
  - intros y C' s' t' Hy. apply Hrep. by right.
  - intros y Hy. apply Hst. by right.
  - apply (run_ops_stable (λ s, met s) (B2 x) s); [|done..]. apply Hst. by left.
Qed.

Lemma pass_ops_bind {K : Type} (g : K → list (path * list string * list string))
    (l : list K) :
  pass_ops i (l ≫= g) = l ≫= λ x, pass_ops i (g x).
Proof.
  unfold pass_ops. induction l as [|x l IH]; [done|].
  by rewrite !bind_cons, bind_app, IH.
Qed.

Lemma pass_ops_cons root dirs files l :
  pass_ops i ((root, dirs, files) :: l) = body_ops i root files ++ pass_ops i l.
Proof. done. Qed.

(** The calls of a pass for a directory: its own, then those for its
    subdirectories. *)
Lemma pass_ops_step o fuel X dirs files :
  scandir o fs (SOURCE_DIR ++ X) = Some (dirs, files) →
  pass_ops i (walk o (S fuel) fs (SOURCE_DIR ++ X)) =
  Mkdir (SOURCE_DIR ++ X) ::
  (files ≫= λ file, [Copy (SOURCE_DIR ++ X) file i]) ++
  (dirs ≫= λ d, pass_ops i (walk o fuel fs (SOURCE_DIR ++ X ++ [d]))).
Proof.
  intros E. cbn [walk]. rewrite E, pass_ops_cons, pass_ops_bind. unfold body_ops.
  rewrite <-app_comm_cons. f_equal.
Qed.

Lemma pass_ops_stop o fuel X :
  scandir o fs (SOURCE_DIR ++ X) = None →
  pass_ops i (walk o fuel fs (SOURCE_DIR ++ X)) = [].
Proof. intros E. destruct fuel; [done|]. cbn [walk]. by rewrite E. Qed.

Lemma scandir_None_order o1 o2 X :
  scandir o1 fs X = None → scandir o2 fs X = None.
Proof. unfold scandir. by destruct (isdir fs X). Qed.

(** Within a pass, the calls for a directory and what is below it can
    be made in the order of any other listing. *)
Lemma pass_order o1 o2 fuel X C s t :
  Forall proper_name X → met s →
  run_ops (pass_ops i (walk o1 fuel fs (SOURCE_DIR ++ X)) ++ C) s = Done t →
  run_ops (pass_ops i (walk o2 fuel fs (SOURCE_DIR ++ X)) ++ C) s = Done t.
Proof.
  revert X C s t. induction fuel as [|fuel IH]; intros X C s t HX HI; [done|].
  destruct (scandir o1 fs (SOURCE_DIR ++ X)) as [[dirs1 files1]|] eqn:E1.
  2:{ rewrite !pass_ops_stop; eauto using scandir_None_order. }
  destruct (scandir o2 fs (SOURCE_DIR ++ X)) as [[dirs2 files2]|] eqn:E2.
  2:{ by rewrite (scandir_None_order o2 o1 _ E2) in E1. }
  destruct (scandir_perm o1 o2 X _ _ _ _ HX E1 E2) as [Hpd Hpf].
  destruct (source_dir_listing o1 X fs _ _ fs_wf HX E1)
    as (Hdir & Hd1 & Hf1 & Hnd1 & Hnf1).
  rewrite (pass_ops_step o1 fuel X _ _ E1), (pass_ops_step o2 fuel X _ _ E2).
  rewrite <-!app_comm_cons, <-!app_assoc.
  set (Bf := λ file, [Copy (SOURCE_DIR ++ X) file i]).
  set (B1 := λ d, pass_ops i (walk o1 fuel fs (SOURCE_DIR ++ X ++ [d]))).
  set (B2 := λ d, pass_ops i (walk o2 fuel fs (SOURCE_DIR ++ X ++ [d]))).
  intros (s1 & Em & E)%run_ops_Done_cons. apply run_ops_Done_cons.
  exists s1. split; [done|].
  pose proof (settled_after_mkdir X s s1 HX Hdir HI Em) as HI1.
  (* the files of the directory *)
  assert (∀ file, file ∈ files1 →
    proper_name file ∧ legit_at (S i) fs (Copy (SOURCE_DIR ++ X) file i)) as Hfile.
  { intros file (r & data & Hf)%Hf1.
    destruct (source_file_proper fs X file fs_wf (mk_is_Some _ _ Hf)) as [_ Hpf'].
    split; [done|]. exists X. rewrite <-app_assoc, Hf. split_and!; [done..|lia]. }
  apply (permute_blocks (settled fs X) Bf files1 files2) in E; [|done|done|..|done].
  2:{ intros x y Hx Hy Hne. apply Hfile in Hx as [Hpx Hlx]. apply Hfile in Hy as [Hpy Hly].
      apply Forall_singleton, Forall_singleton.
      apply (local_commutes _ (copy_region X x i) (copy_region X y i)).
      - apply _.
      - apply _.
      - intros q. by apply copy_region_disjoint.
      - by apply file_copy_local.
      - by apply file_copy_local.
      - by apply (settled_stable (S i)).
      - by apply (settled_stable (S i)). }
  2:{ intros x [_ Hx]%Hfile. apply Forall_singleton. by apply (settled_stable (S i)). }
  apply run_ops_Done_app in E as (s2 & Ef & E). apply run_ops_Done_app.
  exists s2. split; [done|].
  assert (settled fs X s2) as HI2.
  { apply (run_ops_stable (settled fs X) (files2 ≫= Bf) s1); [|done..].
    apply Forall_forall. intros a (file & Ha & Hfile')%list_elem_of_bind.
    apply list_elem_of_singleton in Ha as ->. rewrite <-Hpf in Hfile'.
    apply Hfile in Hfile' as [_ Hl]. by apply (settled_stable (S i)). }
  (* the subdirectories *)
  assert (∀ d, d ∈ dirs1 → Forall proper_name (X ++ [d])) as Hchild.
  { intros d Hd%Hd1. apply (source_child_proper fs); [done..|]. by rewrite Hd. }
  assert (∀ o d a, d ∈ dirs1 →
    a ∈ pass_ops i (walk o fuel fs (SOURCE_DIR ++ X ++ [d])) →
    legit_at (S i) fs a) as Hlegit.
  { intros o d a Hd Ha. apply (pass_ops_legit o (S i) i fuel fs (X ++ [d])); auto. }
  apply (replace_blocks B1 B2) in E; [| | |by apply (settled_met X)].
  2:{ intros d C' s' t' Hd HI'. apply IH; auto. }
  2:{ intros d Hd. apply Forall_forall. intros a Ha.
      apply (met_stable (S i)). by apply (Hlegit o2 d). }
  apply (permute_blocks (settled fs X) B2 dirs1 dirs2) in E; [done|done|done|..|done].
  2:{ intros d Hd. apply Forall_forall. intros a Ha.
      apply (settled_stable (S i)). by apply (Hlegit o2 d). }
  intros x y Hx Hy Hne. apply Forall_forall. intros a Ha.
  apply Forall_forall. intros b Hb.
  apply (local_commutes _ (below (TARGET_DIR ++ X ++ [x])) (below (TARGET_DIR ++ X ++ [y]))).
  - apply _.
  - apply _.
  - intros q. by apply below_disjoint.
  - apply (child_local o2 fuel); auto.
  - apply (child_local o2 fuel); auto.
  - apply (settled_stable (S i)). by apply (Hlegit o2 x).
  - apply (settled_stable (S i)). by apply (Hlegit o2 y).
Qed.

End order.

(** The calls of a run can be made in the order of any other listing. *)
Lemma plan_order o1 o2 copies fs t :
  wf fs →
  run_ops (plan o1 copies fs) fs = Done t → run_ops (plan o2 copies fs) fs = Done t.
Proof.
  intros Hwf. unfold plan. intros (s1 & Em & E)%run_ops_Done_cons.
  apply run_ops_Done_cons. exists s1. split; [done|].
  assert (wf s1 ∧ source_same fs s1) as HI1.
  { by apply (met_stable fs 0 MkTarget I fs s1). }
  rewrite <-(app_nil_r (_ ≫= _)) in E. rewrite <-(app_nil_r (_ ≫= _)). revert E.
  apply (replace_blocks fs); [| |done].
  - intros i C s t' _ HI. rewrite <-(app_nil_r SOURCE_DIR). by apply pass_order.
  - intros i _. apply Forall_forall. intros a Ha. apply (met_stable fs (S i)).
    rewrite <-(app_nil_r SOURCE_DIR) in Ha.
    apply (pass_ops_legit o2 (S i) i (S (depth fs)) fs []); [done|done|lia|done].
Qed.

(** ** The listing order and the result of a run *)




(** * Further properties of the script *)

(** ** Names and paths *)

(** Splitting a generated name gives the stem of the original name
    followed by [_copy<i>], and the extension of the original name. *)
Theorem generated_name_splits file i :
  splitext (new_filename file i) =
  ((splitext file).1 +:+ "_copy" +:+ pretty i, (splitext file).2).
Proof.
  unfold splitext. rewrite splitext_new_filename.
  destruct (splitext_chars (chars file)) as [n e]. cbn [fst snd].
  by rewrite !str_app, !str_chars.
Qed.

Lemma splitext_chars_dotted (stem ext : list ascii) :
  existsb (λ c, negb (is_extsep c)) stem = true → existsb is_sep stem = false →
  existsb is_extsep ext = false → existsb is_sep ext = false →
  splitext_chars (stem ++ "."%char :: ext) = (stem, "."%char :: ext).
Proof.
  intros Hstem Hsep Hdot Hsepe. unfold splitext_chars.
  rewrite rsplit_last, Hsepe by done.
  apply rsplit_None in Hsep. by rewrite Hsep, Hstem.
Qed.

(** A name [stem.ext] whose last part [ext] has no dot becomes
    [stem_copy<i>.ext]: the index goes in front of the last extension
    only, whatever dots the stem holds. *)
Theorem index_before_extension stem ext i :
  existsb (λ c, negb (is_extsep c)) (chars stem) = true →
  existsb is_sep (chars stem) = false →
  existsb is_extsep (chars ext) = false → existsb is_sep (chars ext) = false →
  new_filename (stem +:+ "." +:+ ext) i = stem +:+ "_copy" +:+ pretty i +:+ "." +:+ ext.
Proof.
  intros H1 H2 H3 H4. apply chars_inj.
  rewrite new_filename_chars, !chars_append.
  change (chars ".") with ["."%char]. cbn [app].
  by rewrite (splitext_chars_dotted _ _ H1 H2 H3 H4).
Qed.

Lemma index_before_extension_witness :
  new_filename "archive.tar.gz" 3 = "archive.tar_copy3.gz".
Proof.
  apply (index_before_extension "archive.tar" "gz" 3); reflexivity.
Defined.

Lemma splitext_chars_leading_dots (dots rest : list ascii) :
  forallb is_extsep dots = true → existsb is_extsep rest = false →
  splitext_chars (dots ++ rest) = (dots ++ rest, []).
Proof.
  intros Hdots Hrest. unfold splitext_chars.
  destruct (rsplit is_extsep (dots ++ rest)) as [[b e]|] eqn:E; [|done].
  apply rsplit_Some in E as (c & Heq & Hc & He).
  destruct (existsb is_sep e); [done|].
  assert (forallb is_extsep b = true) as Hb.
  { assert (∀ l1 l2 m1 m2 : list ascii, l1 ++ l2 = m1 ++ c :: m2 →
      forallb is_extsep l1 = true → existsb is_extsep l2 = false →
      forallb is_extsep m1 = true) as Hgen.
    { induction l1 as [|x l1 IH]; intros l2 m1 m2 Hl H1 H2.
      - simpl in Hl. subst l2. rewrite existsb_app in H2. simpl in H2.
        rewrite Hc in H2. by rewrite orb_true_r in H2.
      - destruct m1 as [|y m1]; [done|]. simpl in Hl. injection Hl as -> Hl.
        simpl in *. apply andb_prop in H1 as [Hy H1]. rewrite Hy. simpl.
        by apply (IH l2 m1 m2). }
    by apply (Hgen dots rest b e). }
  assert (∀ l, forallb is_extsep l = true →
    existsb is_sep l = false ∧ existsb (λ c, negb (is_extsep c)) l = false) as Hall.
  { induction l as [|x l IH]; [done|]. simpl. intros [Hx Hl]%andb_prop.
    destruct (IH Hl) as [-> ->]. rewrite Hx. simpl.
    apply bool_decide_eq_true in Hx as ->. done. }
  destruct (Hall b Hb) as [Hs Hn]. apply rsplit_None in Hs. by rewrite Hs, Hn.
Qed.

(** A name whose dots all stand at its beginning (a hidden file such as
    [.bashrc], or a name without any dot) has no extension: the suffix
    [_copy<i>] is appended to the whole name. *)
Theorem leading_dots_name dots rest i :
  forallb is_extsep (chars dots) = true → existsb is_extsep (chars rest) = false →
  new_filename (dots +:+ rest) i = dots +:+ rest +:+ "_copy" +:+ pretty i.
Proof.
  intros H1 H2. apply chars_inj.
  rewrite new_filename_chars, !chars_append.
  rewrite (splitext_chars_leading_dots _ _ H1 H2). cbn [fst snd].
  by rewrite app_nil_r, <-!app_assoc.
Qed.

Lemma leading_dots_name_witness :
  new_filename ".bashrc" 0 = ".bashrc_copy0".
Proof. apply (leading_dots_name "." "bashrc" 0); reflexivity. Defined.

(** The destination directory mirrors the walked directory: joining a
    root with the path of [src/X] relative to [src] names [tgt/X], also
    for [src] itself, whose relative path is [.]; and relative to the
    target root that directory has the relative path the walked one has
    to the source root. *)
Theorem mirror_path (src tgt X : path) :
  Forall proper_name tgt → Forall proper_name X →
  normpath (join tgt (relpath (src ++ X) src)) = tgt ++ X ∧
  relpath (normpath (join tgt (relpath (src ++ X) src))) tgt = relpath (src ++ X) src.
Proof.
  intros Ht HX.
  assert (normpath (join tgt (relpath (src ++ X) src)) = tgt ++ X) as Hn.
  { unfold join. rewrite relpath_under. destruct X as [|c X].
    - rewrite normpath_app_curdir by done. by rewrite normpath_proper.
    - apply normpath_proper. by apply Forall_app. }
  split; [done|]. by rewrite Hn, !relpath_under.
Qed.

Lemma mirror_path_witness :
  normpath (join TARGET_DIR (relpath SOURCE_DIR SOURCE_DIR)) = TARGET_DIR ∧
  normpath (join TARGET_DIR (relpath (SOURCE_DIR ++ ["sub"; "deep"]) SOURCE_DIR))
    = TARGET_DIR ++ ["sub"; "deep"].
Proof.
  split.
  - rewrite <-(app_nil_r SOURCE_DIR) at 1. rewrite <-(app_nil_r TARGET_DIR) at 2.
    apply (mirror_path SOURCE_DIR TARGET_DIR []); [apply TARGET_DIR_proper|done].
  - apply (mirror_path SOURCE_DIR TARGET_DIR ["sub"; "deep"]);
      [apply TARGET_DIR_proper|repeat constructor; discriminate].
Defined.

(** ** Calls that fail *)



(** A regular file at the path of the target root, or of one of its
    ancestors, makes the run raise at its first call: nothing is walked,
    nothing is changed. *)
Theorem blocked_target_root o copies fs q b d :
  wf fs → q ≠ [] → q `prefix_of` TARGET_DIR → fs !! q = Some (File b d) →
  run o copies fs = Raised fs.
Proof.
  intros _ Hq Hp Hf. unfold run, call, makedirs.
  rewrite normpath_proper by apply TARGET_DIR_proper.
  destruct (makedirs_from [] TARGET_DIR fs) as [fs1|] eqn:E; [exfalso|done].
  by apply (proj1 (makedirs_from_is_Some [] TARGET_DIR fs) (mk_is_Some _ _ E) q Hq Hp b d).
Qed.

Lemma blocked_target_root_witness :
  run sorted_order 3 ex_target_is_file = Raised ex_target_is_file.
Proof.
  apply (blocked_target_root sorted_order 3 ex_target_is_file TARGET_DIR true []).
  - apply wf_check_correct. vm_compute. reflexivity.
  - apply (TARGET_DIR_nonempty []).
  - reflexivity.
  - vm_compute. reflexivity.
Defined.



(** ** What a copy writes *)

(** A copy that succeeds writes the content of its source file, which
    was a readable regular file, at the generated path; unless a
    directory stands at the generated path, in which case the file is
    written inside that directory under the name of the source file. *)
Theorem copy_result X file i fs fs' :
  Forall proper_name X → proper_name file →
  exec (Copy (SOURCE_DIR ++ X) file i) fs = Some fs' →
  ∃ data, fs !! (SOURCE_DIR ++ X ++ [file]) = Some (File true data) ∧
    (fs !! generated_path X file i ≠ Some Dir →
       fs' = <[generated_path X file i := File true data]> fs) ∧
    (fs !! generated_path X file i = Some Dir →
       fs' = <[generated_path X file i ++ [file] := File true data]> fs).
Proof.
  intros HX Hf E. rewrite exec_Copy in E by done.
  destruct (fs !! (SOURCE_DIR ++ X ++ [file])) as [[[] data|]|]; try done.
  exists data. split; [done|]. cbn zeta in E.
  repeat case_bool_decide; try done. injection E as <-.
  unfold landing, generated_path. split; intros Hd.
  - by rewrite bool_decide_false.
  - by rewrite bool_decide_true.
Qed.

Lemma copy_result_witness :
  let fs := add_dir TARGET_DIR ex_diverted in
  ∃ fs' data, exec (Copy (SOURCE_DIR ++ []) "a" 0) fs = Some fs' ∧
    fs' = <[generated_path [] "a" 0 ++ ["a"] := File true data]> fs.
Proof.
  intros fs.
  assert (is_Some (exec (Copy (SOURCE_DIR ++ []) "a" 0) fs)) as [fs' E].
  { apply (bool_decide_eq_true_1 _). vm_compute. reflexivity. }
  destruct (copy_result [] "a" 0 fs fs') as (data & _ & _ & Hd).
  - constructor.
  - vm_compute. split; discriminate.
  - exact E.
  - exists fs', data. split; [exact E|]. apply Hd. vm_compute. reflexivity.
Defined.

(** ** What no run does *)

Lemma outside_target_step copies a fs fs' q :
  wf fs → legit_at copies fs a → exec a fs = Some fs' →
  ¬ TARGET_DIR `prefix_of` q →
  fs' !! q = fs !! q ∨
  (fs !! q = None ∧ fs' !! q = Some Dir ∧ q `prefix_of` TARGET_DIR).
Proof.
  intros Hwf Ha E Hq. destruct a as [|root|root file i].
  - rewrite exec_MkTarget in E.
    destruct (makedirs_from_lookup _ _ _ _ q E) as [?|(Hn & Hd & r & Hr & Hp & ->)];
      [by left|by right].
  - destruct Ha as (X & -> & HX). rewrite exec_Mkdir in E.
    2:{ apply (source_path_proper X fs); [done|by rewrite HX]. }
    destruct (makedirs_from_lookup _ _ _ _ q E) as [?|(Hn & Hd & r & Hr & Hp & ->)];
      [by left|]. simpl in *.
    apply prefix_app_cases in Hp as [Hp|(b' & -> & _)]; [by right|].
    exfalso. apply Hq. by exists b'.
  - destruct Ha as (X & -> & Hd & Hf & Hi). rewrite <-app_assoc in Hf.
    destruct (copy_lands _ _ _ _ _ Hwf Hd Hf E) as (data & _ & _ & _ & ->).
    destruct (landing_target fs X file i) as (y & Hy & _).
    left. rewrite lookup_insert_ne; [done|]. intros <-. apply Hq. rewrite Hy.
    by exists y.
Qed.

(** Whether it completes or raises, and whether or not copies are
    diverted, a run removes nothing and changes the kind of nothing: a
    directory stays a directory and a regular file stays a regular file.
    Outside the target root it changes nothing at all, except for
    creating the missing ancestors of the target root. *)
Theorem run_only_adds o copies fs :
  wf fs →
  let fs' := final_fs (run o copies fs) in
  (∀ q, fs !! q = Some Dir → fs' !! q = Some Dir) ∧
  (∀ q b d, fs !! q = Some (File b d) → ∃ b' d', fs' !! q = Some (File b' d')) ∧
  (∀ q, ¬ TARGET_DIR `prefix_of` q →
     fs' !! q = fs !! q ∨
     (fs !! q = None ∧ fs' !! q = Some Dir ∧ q `prefix_of` TARGET_DIR)).
Proof.
  intros Hwf fs'.
  set (R := λ s s' : filesys, evolves s s' ∧
    ∀ q, ¬ TARGET_DIR `prefix_of` q →
      s' !! q = s !! q ∨
      (s !! q = None ∧ s' !! q = Some Dir ∧ q `prefix_of` TARGET_DIR)).
  assert (PreOrder R) as HR.
  { split.
    - intros s. split; [done|]. by left.
    - intros s1 s2 s3 [He1 H1] [He2 H2]. split; [by etrans|]. intros q Hq.
      destruct (H1 q Hq) as [E1|(Hn1 & Hd1 & Hp1)],
               (H2 q Hq) as [E2|(Hn2 & Hd2 & Hp2)].
      + left. congruence.
      + right. split_and!; [congruence|done..].
      + right. split_and!; [done|congruence|done].
      + congruence. }
  destruct (run_ok o copies wf R (λ _ H, H)) with (fs := fs)
    as [_ [(_ & Hd & Hf & _) Hout]]; [| |done|done].
  - intros s s' x [[Hs _] _]. apply Hs.
  - intros a s s' Hwfs Ha E.
    destruct (exec_evolves copies a s s' Hwfs Ha E) as [Hwf' He].
    split; [done|]. split; [done|]. intros q Hq.
    by apply (outside_target_step copies a).
Qed.

Lemma run_only_adds_witness :
  let fs' := final_fs (run sorted_order 2 ex_clash) in
  (∀ q, ex_clash !! q = Some Dir → fs' !! q = Some Dir) ∧
  (∀ q b d, ex_clash !! q = Some (File b d) → ∃ b' d', fs' !! q = Some (File b' d')) ∧
  (∀ q, ¬ TARGET_DIR `prefix_of` q →
     fs' !! q = ex_clash !! q ∨
     (ex_clash !! q = None ∧ fs' !! q = Some Dir ∧ q `prefix_of` TARGET_DIR)).
Proof.
  apply (run_only_adds sorted_order 2 ex_clash).
  apply wf_check_correct. vm_compute. reflexivity.
Defined.

(** ** Running the script again *)

Lemma run_ops_identity ops s :
  Forall (λ a, exec a s = Some s) ops → run_ops ops s = Done s.
Proof.
  induction 1 as [|a ops Ha _ IH]; [done|].
  rewrite run_ops_cons. unfold call. by rewrite Ha.
Qed.

Section rerun.
Context (o : listing_order) (n : nat) (fs0 fs1 : filesys).
Hypothesis wf0 : wf fs0.
Hypothesis no_clash0 : no_clash n fs0.
Hypothesis run0 : run o n fs0 = Done fs1.

Lemma after_run_evolves : wf fs1 ∧ evolves fs0 fs1.
Proof. pose proof (run_evolves o n fs0 wf0) as H. by rewrite run0 in H. Qed.

Lemma after_run_target : fs1 !! TARGET_DIR = Some Dir.
Proof.
  destruct (run_makes_target o n wf evolves (λ _ H, H)
    (λ fs fs' x H, proj1 H x) (exec_evolves n) fs0 fs1 wf0 run0)
    as (fsa & Ea & _ & (_ & Hda & _)).
  apply Hda. rewrite exec_MkTarget in Ea. rewrite <-(app_nil_l TARGET_DIR) at 1.
  apply (makedirs_from_dirs [] _ _ _ _ Ea); [apply (TARGET_DIR_nonempty [])|done].
Qed.

Lemma after_run_mirror X :
  0 < n → fs0 !! (SOURCE_DIR ++ X) = Some Dir → fs1 !! (TARGET_DIR ++ X) = Some Dir.
Proof.
  intros Hpos HX.
  destruct (run_makes_dir o n wf evolves (λ _ H, H)
    (λ fs fs' x H, proj1 H x) (exec_evolves n) 0 X fs0 fs1 Hpos wf0 run0 HX)
    as (fsa & fsb & _ & _ & Eb & _ & (_ & Hdb & _)).
  apply Hdb. rewrite exec_Mkdir in Eb.
  - apply (makedirs_from_dirs [] _ _ _ _ Eb); [apply TARGET_DIR_nonempty|done].
  - apply (source_path_proper X fs0); [done|by rewrite HX].
Qed.

Lemma after_run_readable X file r data :
  0 < n → fs0 !! (SOURCE_DIR ++ X ++ [file]) = Some (File r data) → r = true.
Proof.
  intros Hpos Hf.
  destruct (run_copies_file o n wf evolves (λ _ H, H)
    (λ fs fs' x H, proj1 H x) (exec_evolves n) 0 X file r data fs0 fs1
    Hpos wf0 run0 Hf) as (fsa & fsb & (Hsa & _) & _ & Ea & _).
  destruct (source_file_proper fs0 X file wf0 (mk_is_Some _ _ Hf)) as [HX Hpf].
  rewrite exec_Copy in Ea by done. rewrite Hsa, Hf in Ea. by destruct r.
Qed.

(** On the file system a run left, a pass of index below [n] changes
    nothing: the directories are there, and every copy is rewritten with
    the content it has. *)
Lemma pass_again o' i :
  i < n → for_os_walk o' (walk_body i) SOURCE_DIR fs1 = Done fs1.
Proof.
  intros Hi. destruct after_run_evolves as [Hwf1 (Hs1 & _)].
  unfold for_os_walk. rewrite <-(app_nil_r SOURCE_DIR).
  rewrite walk_loop_plan by done. apply run_ops_identity, Forall_forall.
  intros a (root & dirs & files & Hin & Ha)%elem_of_pass_ops.
  apply elem_of_walk in Hin as (Y & -> & HY & Hscan); [|done..].
  rewrite app_nil_l in *.
  destruct (source_dir_listing o' Y fs1 dirs files Hwf1 HY Hscan)
    as (Hdir & _ & Hfiles & _).
  rewrite Hs1 in Hdir.
  assert (fs1 !! (TARGET_DIR ++ Y) = Some Dir) as Hmir.
  { apply after_run_mirror; [lia|done]. }
  apply elem_of_cons in Ha as [->|Ha].
  - simpl. apply makedirs_present; [done|]. right. by rewrite dest_path_normal.
  - apply list_elem_of_fmap in Ha as (file & -> & Hf).
    apply Hfiles in Hf as (r & data & Hf). rewrite Hs1 in Hf.
    assert (r = true) as -> by (apply (after_run_readable Y file r data); [lia|done]).
    destruct (source_file_proper fs0 Y file wf0 (mk_is_Some _ _ Hf)) as [_ Hpf].
    pose proof (clean_run_copy o n fs0 wf0 no_clash0 fs1 Y file i true data run0 Hi Hf)
      as Hcopy.
    rewrite exec_Copy, Hs1, Hf by done. cbn zeta.
    assert (landing fs1 Y file i = TARGET_DIR ++ Y ++ [new_filename file i]) as ->.
    { unfold landing. by rewrite bool_decide_false by by rewrite Hcopy. }
    rewrite bool_decide_false by by rewrite Hcopy.
    rewrite (app_assoc TARGET_DIR), parent_snoc, bool_decide_true by done.
    by rewrite <-app_assoc, insert_id.
Qed.

Lemma passes_again o' (l : list nat) :
  (∀ i, i ∈ l → i < n) →
  for_each l (λ i, for_os_walk o' (walk_body i) SOURCE_DIR) fs1 = Done fs1.
Proof.
  induction l as [|i l IH]; intros Hl; [done|].
  rewrite for_each_cons, pass_again by (apply Hl; by left).
  apply IH. intros j Hj. apply Hl. by right.
Qed.

End rerun.



(** ** When a run completes *)

Section completion.
Context (o : listing_order) (copies : nat) (fs0 : filesys).
Hypothesis wf0 : wf fs0.
Hypothesis no_clash0 : no_clash copies fs0.
Hypothesis free_root : ∀ q b d,
  q ≠ [] → q `prefix_of` TARGET_DIR → fs0 !! q ≠ Some (File b d).
Hypothesis free_dirs : 0 < copies → ∀ X b d,
  fs0 !! (SOURCE_DIR ++ X) = Some Dir → fs0 !! (TARGET_DIR ++ X) ≠ Some (File b d).
Hypothesis readable : 0 < copies → ∀ X file data,
  fs0 !! (SOURCE_DIR ++ X ++ [file]) ≠ Some (File false data).
Implicit Types (s : filesys) (X q : path).

(** The file systems of the run: they differ from the initial one by
    new directories and by copies at generated paths. *)
Local Abbreviation reached s :=
  ((wf s ∧ evolves fs0 s) ∧ evolves fs0 s ∧ copies_only copies fs0 fs0 s).

Lemma reached_initial : reached fs0.
Proof. split_and!; [done..|]. split; [by left|done]. Qed.

Lemma reached_step a s s' :
  reached s → legit_at copies s a → exec a s = Some s' → reached s'.
Proof.
  intros [HI HR] Ha E.
  destruct (clean_step copies fs0 no_clash0 a s s' HI Ha E) as [HI' HR'].
  split; [done|]. destruct (clean_preorder copies fs0) as [_ Htrans].
  by apply (Htrans fs0 s s').
Qed.

(** No regular file is in the way of a directory to create. *)
Lemma reached_free s X q b d :
  reached s → X = [] ∨ (0 < copies ∧ fs0 !! (SOURCE_DIR ++ X) = Some Dir) →
  q ≠ [] → q `prefix_of` TARGET_DIR ++ X → s !! q ≠ Some (File b d).
Proof.
  intros (_ & _ & Hc & _) HX Hq Hp Hs.
  assert (∀ Y, Y ≠ [] → Y `prefix_of` X →
    0 < copies ∧ fs0 !! (SOURCE_DIR ++ Y) = Some Dir) as Hsub.
  { intros Y HY [k ->]. destruct HX as [HX|[Hpos HX]]; [by destruct Y|].
    split; [done|]. destruct k as [|c k]; [by rewrite app_nil_r in HX|].
    rewrite app_assoc in HX.
    apply (wf_prefix_dir fs0 _ (c :: k)); [done|by rewrite HX|done|].
    apply SOURCE_DIR_nonempty. }
  apply prefix_app_cases in Hp as Hcases.
  destruct (Hc q) as [Heq|[[_ Hd]|(data & (Y & g & j & r & Hj & Hg & ->) & _)]].
  - rewrite Heq in Hs. destruct Hcases as [Hp'|(Y & -> & HY)].
    + by apply (free_root q b d).
    + destruct (decide (Y = [])) as [->|HYne].
      * apply (free_root (TARGET_DIR ++ []) b d); [done| |done].
        by rewrite app_nil_r.
      * destruct (Hsub Y HYne HY) as [Hpos Hdir].
        by apply (free_dirs Hpos Y b d).
  - congruence.
  - destruct Hcases as [Hp'|(Y' & HY' & HYp)].
    + apply target_not_prefix in Hp'; [done|by destruct Y].
    + apply app_inv_head in HY'. subst Y'.
      destruct (Hsub (Y ++ [new_filename g j])) as [_ Hdir]; [by destruct Y|done|].
      by destruct (no_clash0 Y g j r data Hj Hg) as [_ ?].
Qed.

Lemma mkdir_completes s X :
  reached s → 0 < copies → fs0 !! (SOURCE_DIR ++ X) = Some Dir →
  ∃ s', exec (Mkdir (SOURCE_DIR ++ X)) s = Some s' ∧ reached s' ∧
        s' !! (TARGET_DIR ++ X) = Some Dir.
Proof.
  intros Hr Hpos HX.
  assert (Forall proper_name X) as HpX.
  { apply (source_path_proper X fs0); [done|by rewrite HX]. }
  assert (is_Some (exec (Mkdir (SOURCE_DIR ++ X)) s)) as [s' E].
  { rewrite exec_Mkdir by done. apply makedirs_from_is_Some.
    intros q Hq Hp b d. simpl. apply (reached_free s X); auto. }
  exists s'. split; [done|]. split.
  - apply (reached_step (Mkdir (SOURCE_DIR ++ X)) s); [done| |done].
    exists X. split; [done|]. destruct Hr as ((_ & Hs & _) & _). by rewrite Hs.
  - rewrite exec_Mkdir in E by done.
    apply (makedirs_from_dirs [] _ _ _ _ E); [apply TARGET_DIR_nonempty|done].
Qed.

Lemma copy_completes s X file r data i :
  reached s → i < copies → s !! (TARGET_DIR ++ X) = Some Dir →
  fs0 !! (SOURCE_DIR ++ X ++ [file]) = Some (File r data) →
  ∃ s', exec (Copy (SOURCE_DIR ++ X) file i) s = Some s' ∧ reached s' ∧
        s' !! (TARGET_DIR ++ X) = Some Dir.
Proof.
  intros Hr Hi Hd Hf. pose proof Hr as ((Hwf & Hs & _) & _).
  destruct r; [|by destruct (readable ltac:(lia) X file data)].
  destruct (source_file_proper fs0 X file wf0 (mk_is_Some _ _ Hf)) as [HpX Hpf].
  pose proof (clean_landing copies fs0 no_clash0 s X file i true data
    (proj1 Hr) Hi Hf) as Hl.
  assert (s !! (TARGET_DIR ++ X ++ [new_filename file i]) ≠ Some Dir) as Hnd.
  { intros Hdir. unfold landing in Hl. rewrite bool_decide_true in Hl by done.
    apply (f_equal length) in Hl. rewrite !length_app in Hl. simpl in Hl. lia. }
  assert (exec (Copy (SOURCE_DIR ++ X) file i) s =
    Some (<[TARGET_DIR ++ X ++ [new_filename file i] := File true data]> s)) as E.
  { rewrite exec_Copy, Hs, Hf by done. cbn zeta. rewrite Hl.
    rewrite bool_decide_false by done.
    by rewrite (app_assoc TARGET_DIR), parent_snoc, bool_decide_true. }
  eexists. split; [done|]. split.
  - apply (reached_step (Copy (SOURCE_DIR ++ X) file i) s); [done| |done].
    exists X. rewrite <-app_assoc, !Hs, Hf. split_and!; [done| |done..].
    rewrite app_assoc in Hf.
    apply (wf_prefix_dir fs0 _ [file]); [done|by rewrite Hf|done|].
    apply SOURCE_DIR_nonempty.
  - rewrite lookup_insert_ne; [done|]. intros Heq. apply app_inv_head in Heq.
    apply (f_equal length) in Heq. rewrite length_app in Heq. simpl in Heq. lia.
Qed.

(** A pass completes from every file system of the run. *)
Lemma pass_completes i fuel X s :
  reached s → i < copies → Forall proper_name X →
  ∃ s', run_ops (pass_ops i (walk o fuel fs0 (SOURCE_DIR ++ X))) s = Done s' ∧
        reached s'.
Proof.
  intros Hr Hi. revert X s Hr. induction fuel as [|fuel IH]; intros X s Hr HX.
  { by exists s. }
  destruct (scandir o fs0 (SOURCE_DIR ++ X)) as [[dirs files]|] eqn:E.
  2:{ rewrite pass_ops_stop by done. by exists s. }
  destruct (source_dir_listing o X fs0 dirs files wf0 HX E)
    as (Hdir & Hdirs & Hfiles & _).
  rewrite (pass_ops_step fs0 i o fuel X dirs files E).
  destruct (mkdir_completes s X Hr ltac:(lia) Hdir) as (s1 & E1 & Hr1 & Hd1).
  assert (∀ l s1, (∀ f, f ∈ l → f ∈ files) → reached s1 →
    s1 !! (TARGET_DIR ++ X) = Some Dir →
    ∃ s2, run_ops (l ≫= λ file, [Copy (SOURCE_DIR ++ X) file i]) s1 = Done s2 ∧
          reached s2) as Hcopies.
  { clear s1 E1 Hr1 Hd1. induction l as [|f l IHl]; intros s1 Hl Hr1 Hd1.
    { by exists s1. }
    destruct (proj1 (Hfiles f) (Hl f ltac:(by left))) as (r & data & Hf).
    destruct (copy_completes s1 X f r data i Hr1 Hi Hd1 Hf) as (s2 & E2 & Hr2 & Hd2).
    destruct (IHl s2) as (s3 & E3 & Hr3); [|done..|].
    { intros g Hg. apply Hl. by right. }
    exists s3. split; [|done]. rewrite bind_cons. apply run_ops_Done_cons. eauto. }
  assert (∀ l s2, (∀ d, d ∈ l → d ∈ dirs) → reached s2 →
    ∃ s3, run_ops (l ≫= λ d, pass_ops i (walk o fuel fs0 (SOURCE_DIR ++ X ++ [d]))) s2
            = Done s3 ∧ reached s3) as Hsubs.
  { induction l as [|d l IHl]; intros s2 Hl Hr2.
    { by exists s2. }
    assert (Forall proper_name (X ++ [d])) as HXd.
    { apply (source_child_proper fs0); [done..|].
      rewrite (proj1 (Hdirs d)); [done|]. apply Hl. by left. }
    destruct (IH (X ++ [d]) s2 Hr2 HXd) as (s3 & E3 & Hr3).
    destruct (IHl s3) as (s4 & E4 & Hr4); [|done|].
    { intros g Hg. apply Hl. by right. }
    exists s4. split; [|done]. rewrite bind_cons. apply run_ops_Done_app. eauto. }
  destruct (Hcopies files s1) as (s2 & E2 & Hr2); [done..|].
  destruct (Hsubs dirs s2) as (s3 & E3 & Hr3); [done..|].
  exists s3. split; [|done]. apply run_ops_Done_cons. exists s1. split; [done|].
  apply run_ops_Done_app. eauto.
Qed.

Lemma run_completes : succeeded (run o copies fs0) = true.
Proof.
  rewrite run_plan by done. unfold plan.
  assert (is_Some (exec MkTarget fs0)) as [s1 E1].
  { rewrite exec_MkTarget. apply makedirs_from_is_Some. intros q Hq Hp b d.
    by apply free_root. }
  pose proof (reached_step MkTarget fs0 s1 reached_initial I E1) as Hr1.
  assert (∀ l s, (∀ i, i ∈ l → i < copies) → reached s →
    ∃ s', run_ops (l ≫= λ i, pass_ops i (walk o (S (depth fs0)) fs0 SOURCE_DIR)) s
            = Done s' ∧ reached s') as Hpasses.
  { induction l as [|i l IHl]; intros s Hl Hr.
    { by exists s. }
    destruct (pass_completes i (S (depth fs0)) [] s Hr) as (s2 & E2 & Hr2);
      [apply Hl; by left|done|].
    rewrite app_nil_r in E2.
    destruct (IHl s2) as (s3 & E3 & Hr3); [|done|].
    { intros j Hj. apply Hl. by right. }
    exists s3. split; [|done]. rewrite bind_cons. apply run_ops_Done_app. eauto. }
  destruct (Hpasses (seq 0 copies) s1) as (s2 & E2 & _); [|done|].
  { intros i Hi%elem_of_seq. lia. }
  assert (run_ops (MkTarget :: (seq 0 copies ≫= λ i,
    pass_ops i (walk o (S (depth fs0)) fs0 SOURCE_DIR))) fs0 = Done s2) as ->; [|done].
  apply run_ops_Done_cons. eauto.
Qed.

End completion.



(** ** The calls of a run *)

Section calls_of_a_run.
Context (o : listing_order) (fs : filesys).
Hypothesis fs_wf : wf fs.

(** The walk reaches every directory under its top. *)
Lemma walk_reaches fuel X Y :
  Forall proper_name X → fs !! (SOURCE_DIR ++ X ++ Y) = Some Dir → length Y < fuel →
  ∃ dirs files, (SOURCE_DIR ++ X ++ Y, dirs, files) ∈ walk o fuel fs (SOURCE_DIR ++ X).
Proof.
  revert X Y. induction fuel as [|fuel IH]; intros X Y HX HY Hlen; [lia|].
  assert (fs !! (SOURCE_DIR ++ X) = Some Dir) as Hdir.
  { destruct Y as [|d Y]; [by rewrite app_nil_r in HY|].
    rewrite app_assoc in HY.
    apply (wf_prefix_dir fs _ (d :: Y)); [done|by rewrite HY|done|].
    apply SOURCE_DIR_nonempty. }
  assert (is_Some (scandir o fs (SOURCE_DIR ++ X))) as [[dirs files] E].
  { apply scandir_is_Some; [|apply SOURCE_DIR_nonempty|done].
    apply Forall_app. split; [apply SOURCE_DIR_proper|done]. }
  cbn [walk]. rewrite E. destruct Y as [|d Y].
  { exists dirs, files. rewrite app_nil_r. by left. }
  destruct (source_dir_listing o X fs dirs files fs_wf HX E) as (_ & Hdirs & _).
  assert (fs !! (SOURCE_DIR ++ X ++ [d]) = Some Dir) as Hd.
  { destruct Y as [|c Y]; [done|].
    replace (SOURCE_DIR ++ X ++ d :: c :: Y)
      with ((SOURCE_DIR ++ X ++ [d]) ++ c :: Y) in HY by by rewrite <-!app_assoc.
    apply (wf_prefix_dir fs _ (c :: Y)); [done|by rewrite HY|done|].
    apply SOURCE_DIR_nonempty. }
  destruct (IH (X ++ [d]) Y) as (dirs' & files' & Hin).
  - apply (source_child_proper fs); [done..|]. by rewrite Hd.
  - by rewrite <-app_assoc.
  - simpl in Hlen. lia.
  - exists dirs', files'. right. apply list_elem_of_bind. exists d.
    split; [|by apply Hdirs]. unfold join. rewrite <-!app_assoc in *. done.
Qed.

(** What the walk yields for a directory is determined by the directory. *)
Lemma walk_entry_unique fuel1 fuel2 X1 X2 root dirs1 files1 dirs2 files2 :
  Forall proper_name X1 → Forall proper_name X2 →
  (root, dirs1, files1) ∈ walk o fuel1 fs (SOURCE_DIR ++ X1) →
  (root, dirs2, files2) ∈ walk o fuel2 fs (SOURCE_DIR ++ X2) →
  dirs1 = dirs2 ∧ files1 = files2.
Proof.
  intros H1 H2 (Y1 & _ & _ & E1)%elem_of_walk (Y2 & _ & _ & E2)%elem_of_walk;
    [|done..].
  rewrite E1 in E2. by injection E2.
Qed.

(** The walk yields no directory twice. *)
Lemma walk_NoDup fuel X :
  Forall proper_name X → NoDup (walk o fuel fs (SOURCE_DIR ++ X)).
Proof.
  revert X. induction fuel as [|fuel IH]; intros X HX; [constructor|].
  cbn [walk]. destruct (scandir o fs (SOURCE_DIR ++ X)) as [[dirs files]|] eqn:E;
    [|constructor].
  destruct (source_dir_listing o X fs dirs files fs_wf HX E) as (_ & Hdirs & _ & Hnd & _).
  assert (∀ d, d ∈ dirs → Forall proper_name (X ++ [d])) as Hchild.
  { intros d Hd%Hdirs. apply (source_child_proper fs); [done..|]. by rewrite Hd. }
  assert (∀ d t, d ∈ dirs → t ∈ walk o fuel fs (join (SOURCE_DIR ++ X) [d]) →
    ∃ Y, t.1.1 = SOURCE_DIR ++ X ++ d :: Y) as Hbelow.
  { intros d [[root ds] fls] Hd Hin. unfold join in Hin. rewrite <-app_assoc in Hin.
    apply elem_of_walk in Hin as (Y & -> & _); [|by auto..].
    exists Y. by rewrite <-!app_assoc. }
  apply NoDup_cons. split.
  - intros (d & Hin & Hd)%list_elem_of_bind.
    destruct (Hbelow d _ Hd Hin) as (Y & HY). simpl in HY.
    apply app_inv_head in HY. apply (f_equal length) in HY.
    rewrite length_app in HY. simpl in HY. lia.
  - apply NoDup_bind; [|intros d Hd|done].
    + intros d1 d2 t Hd1 Hd2 Ht1 Ht2.
      destruct (Hbelow d1 t Hd1 Ht1) as (Y1 & HY1).
      destruct (Hbelow d2 t Hd2 Ht2) as (Y2 & HY2).
      rewrite HY1 in HY2. do 2 apply app_inv_head in HY2. by injection HY2.
    + unfold join. rewrite <-app_assoc. by apply IH, Hchild.
Qed.

Lemma body_ops_root i root files a :
  a ∈ body_ops i root files →
  a = Mkdir root ∨ ∃ file, a = Copy root file i ∧ file ∈ files.
Proof.
  intros [->|(file & -> & Hf)%list_elem_of_fmap]%elem_of_cons; [by left|].
  right. by exists file.
Qed.

Lemma pass_ops_NoDup i fuel X :
  Forall proper_name X → NoDup (pass_ops i (walk o fuel fs (SOURCE_DIR ++ X))).
Proof.
  intros HX. unfold pass_ops. apply NoDup_bind; [| |by apply walk_NoDup].
  - intros [[root1 dirs1] files1] [[root2 dirs2] files2] a Hin1 Hin2 Ha1 Ha2.
    assert (root1 = root2) as <-.
    { apply body_ops_root in Ha1 as [->|(f1 & -> & _)];
        apply body_ops_root in Ha2 as [E|(f2 & E & _)]; congruence. }
    by destruct (walk_entry_unique fuel fuel X X root1 dirs1 files1 dirs2 files2
      HX HX Hin1 Hin2) as [-> ->].
  - intros [[root dirs] files] Hin.
    apply elem_of_walk in Hin as (Y & -> & HY & E); [|done..].
    destruct (source_dir_listing o _ fs dirs files fs_wf HY E) as (_ & _ & _ & _ & Hnf).
    unfold body_ops. apply NoDup_cons. split.
    + by intros (file & ? & _)%list_elem_of_fmap.
    + apply NoDup_fmap_2; [|done]. by intros f1 f2 [= ->].
Qed.

End calls_of_a_run.



(** Within a pass no call is made twice: every directory is visited
    once and every file is copied once. *)
Theorem pass_calls_once o i fs :
  wf fs → NoDup (pass_ops i (walk o (S (depth fs)) fs SOURCE_DIR)).
Proof.
  intros Hwf. rewrite <-(app_nil_r SOURCE_DIR). by apply pass_ops_NoDup.
Qed.

Lemma pass_calls_once_witness :
  NoDup (pass_ops 0 (walk sorted_order (S (depth ex_pair)) ex_pair SOURCE_DIR)).
Proof.
  apply (pass_calls_once sorted_order 0 ex_pair).
  apply wf_check_correct. vm_compute. reflexivity.
Defined.

(** ** What a run writes *)

Lemma written_step copies a s s' q b d :
  wf s → legit_at copies s a → exec a s = Some s' →
  s' !! q = Some (File b d) →
  s !! q = Some (File b d) ∨
  ∃ X file i, i < copies ∧
    s !! (SOURCE_DIR ++ X ++ [file]) = Some (File true d) ∧ b = true ∧
    (q = generated_path X file i ∨ q = generated_path X file i ++ [file]).
Proof.
  intros Hwf Ha E Hq. destruct a as [|root|root file i].
  - rewrite exec_MkTarget in E.
    destruct (makedirs_from_lookup _ _ _ _ q E) as [Heq|(_ & Hd & _)];
      [left|]; congruence.
  - destruct Ha as (X & -> & HX). rewrite exec_Mkdir in E.
    2:{ apply (source_path_proper X s); [done|by rewrite HX]. }
    destruct (makedirs_from_lookup _ _ _ _ q E) as [Heq|(_ & Hd & _)];
      [left|]; congruence.
  - destruct Ha as (X & -> & Hd & Hf & Hi). rewrite <-app_assoc in Hf.
    destruct (copy_lands _ _ _ _ _ Hwf Hd Hf E) as (data & Hsrc & _ & _ & ->).
    destruct (decide (landing s X file i = q)) as [<-|Hne].
    + rewrite lookup_insert_eq in Hq. injection Hq as <- <-.
      right. exists X, file, i. split_and!; [done..|].
      unfold landing, generated_path. case_bool_decide; auto.
    + rewrite lookup_insert_ne in Hq by done. by left.
Qed.

(** Whether it completes or raises, and whether or not copies are
    diverted, a run writes nothing but copies of source files: every
    regular file of the final file system is one that was there before,
    unchanged, or holds the content of a readable source file and
    stands at the generated path of that file or, inside a directory of
    that name, under the name of the file. *)
Theorem files_written o copies fs q b d :
  wf fs → final_fs (run o copies fs) !! q = Some (File b d) →
  fs !! q = Some (File b d) ∨
  ∃ X file i, i < copies ∧
    fs !! (SOURCE_DIR ++ X ++ [file]) = Some (File true d) ∧ b = true ∧
    (q = generated_path X file i ∨ q = generated_path X file i ++ [file]).
Proof.
  intros Hwf.
  set (R := λ s s' : filesys, evolves s s' ∧
    ∀ q b d, s' !! q = Some (File b d) →
      s !! q = Some (File b d) ∨
      ∃ X file i, i < copies ∧
        s !! (SOURCE_DIR ++ X ++ [file]) = Some (File true d) ∧ b = true ∧
        (q = generated_path X file i ∨ q = generated_path X file i ++ [file])).
  assert (PreOrder R) as HR.
  { split.
    - intros s. split; [done|]. intros. by left.
    - intros s1 s2 s3 [He1 H1] [He2 H2]. split; [by etrans|]. intros q' b' d' Hq.
      destruct (H2 q' b' d' Hq) as [Hq2|(X & file & i & Hi & Hsrc & Hb & Hpath)].
      + by apply H1.
      + right. exists X, file, i. destruct He1 as [Hs1 _]. by rewrite <-Hs1. }
  destruct (run_ok o copies wf R (λ _ H, H)) with (fs := fs)
    as [_ [_ Hw]]; [| |done|by apply Hw].
  - intros s s' x [[Hs _] _]. apply Hs.
  - intros a s s' Hwfs Ha E.
    destruct (exec_evolves copies a s s' Hwfs Ha E) as [Hwf' He].
    split; [done|]. split; [done|]. intros q' b' d'.
    by apply (written_step copies a).
Qed.

Lemma files_written_witness :
  ex_diverted !! (TARGET_DIR ++ ["a_copy0"; "a"]) = Some (File true ["a"%byte]) ∨
  ∃ X file i, i < 1 ∧
    ex_diverted !! (SOURCE_DIR ++ X ++ [file]) = Some (File true ["a"%byte]) ∧
    true = true ∧
    (TARGET_DIR ++ ["a_copy0"; "a"] = generated_path X file i ∨
     TARGET_DIR ++ ["a_copy0"; "a"] = generated_path X file i ++ [file]).
Proof.
  apply (files_written sorted_order 1 ex_diverted).
  - apply wf_check_correct. vm_compute. reflexivity.
  - vm_compute. reflexivity.
Defined.

(** ** The walk and the writes *)

(** [os.walk] lists a directory only when the loop reaches it, after
    the calls made so far; yet the run makes exactly the calls that the
    initial file system determines, in their order, because nothing it
    writes shows up in a listing of the source tree: every directory
    under the source root lists the same at the end as at the start. *)
Theorem walk_ignores_writes o copies fs :
  wf fs →
  run o copies fs = run_ops (plan o copies fs) fs ∧
  (∀ X, Forall proper_name X →
     scandir o (final_fs (run o copies fs)) (SOURCE_DIR ++ X) =
     scandir o fs (SOURCE_DIR ++ X)).
Proof.
  intros Hwf. split; [by apply run_plan|]. intros X HX.
  destruct (run_evolves o copies fs Hwf) as [_ (Hs & _)].
  apply scandir_ext.
  - apply Forall_app. split; [apply SOURCE_DIR_proper|done].
  - apply SOURCE_DIR_nonempty.
  - apply Hs.
  - intros n. rewrite <-!app_assoc. apply Hs.
Qed.

Lemma walk_ignores_writes_witness :
  run reverse_order 2 ex_pair = run_ops (plan reverse_order 2 ex_pair) ex_pair ∧
  (∀ X, Forall proper_name X →
     scandir reverse_order (final_fs (run reverse_order 2 ex_pair)) (SOURCE_DIR ++ X) =
     scandir reverse_order ex_pair (SOURCE_DIR ++ X)).
Proof.
  apply (walk_ignores_writes reverse_order 2 ex_pair).
  apply wf_check_correct. vm_compute. reflexivity.
Defined.

(** ** A source root that is not a directory *)


